(** * TeleInfo (TIC) component for ESPHome: framing, checksum gate and the
      change-tracking store of [MyTicComponent]

    Shallow embedding of [my_tic_component.h] (class [MyTicComponent]) and
    the properties of its natural-language specification.

    Conventions of the embedding.
    - An Arduino [String] is a [string]; a [char] is an [ascii], and where
      the code does arithmetic on a [char] its code is an integer in
      [0, 256) with the 8-bit wrap-around written out.  The only arithmetic
      on chars is the checksum, whose result keeps the low six bits of the
      sum, so the signedness of [char] does not matter.
    - [int] and [unsigned int] indices are integers of [Z]; the unsigned
      conversions of the code are written [uint].
    - [float] is IEEE binary32 and [double] binary64, both carried by
      [spec_float] of the standard library.
    - The UART of [UARTDevice] is the queue of bytes available to one call
      of [loop]; logging, the sensors and the switch are an output trace of
      [event]s.
    - A [string] of the model may hold any character, the null character
      included, and [String::length] counts it.  The Arduino core keeps
      the characters in a C string: [String::indexOf] is [strchr] and the
      comparison [buff != ""] is [strcmp], which both stop at the first
      null character, and so do [indexOf] and [differs_from_empty] of the
      model.  What the core does with the characters behind a null
      character in the other operations depends on its version; the
      properties that rest on them are stated for records and streams
      without the null character.
    - [delay] and [yield] have no effect on the member variables and are
      left out.
    - [String::toFloat] belongs to the Arduino core, not to this
      repository: the component is parameterised by it (Section
      [Component]), and [String_toFloat] below is a model of it written
      from the specification.
    - The two earlier revisions of the component are the modules
      [FiveLabels] (five labels, same framer, parser and flags) and
      [Unflagged] (no flags; [processCommand] and [update] only). *)

From Stdlib Require Import ZArith List String Ascii Bool Lia Permutation.
From Stdlib Require Import Floats.SpecFloat.
Import ListNotations.

Local Open Scope string_scope.
Local Open Scope list_scope.

(** ** Characters and Arduino strings *)

Definition code (c : ascii) : Z := Z.of_nat (nat_of_ascii c).

Definition CR : ascii := ascii_of_nat 13.
Definition LF : ascii := ascii_of_nat 10.

(** The null character, which ends a C string. *)
Definition NUL : ascii := ascii_of_nat 0.

(** Conversion of an integer to [unsigned int] (32 bits). *)
Definition uint (z : Z) : Z := z mod 4294967296.

(** The largest [int]: the index of a [for] loop stays below it. *)
Definition INT_MAX : Z := 2147483647.

(** [char + char] stored back into a [char]. *)
Definition char_add (a b : Z) : Z := (a + b) mod 256.

Module WString.

(** [String::length()] *)
Definition length (s : string) : Z := Z.of_nat (String.length s).

(** [String::indexOf(char)], which is [strchr] on the buffer: the
    position of the first occurrence of [ch] (a character other than
    the null character), looked for up to the first null character, and
    [-1] when there is none before it. *)
Fixpoint indexOf (s : string) (ch : ascii) : Z :=
  match s with
  | EmptyString => -1
  | String c s' =>
      if Ascii.eqb c ch then 0
      else if Ascii.eqb c NUL then -1
      else let r := indexOf s' ch in
           if (r <? 0)%Z then -1 else r + 1
  end%Z.

(** [s != ""], which is [strcmp] on the buffer: a string that is empty
    or starts with the null character compares equal to [""]. *)
Definition differs_from_empty (s : string) : bool :=
  match s with
  | EmptyString => false
  | String c _ => negb (Ascii.eqb c NUL)
  end.

(** [String::operator[](unsigned int)]: the character at [index], and
    the null character when [index] is not below the length. *)
Definition charAt (s : string) (index : Z) : ascii :=
  if (index <? 0)%Z then zero
  else match String.get (Z.to_nat index) s with
       | Some c => c
       | None => zero
       end.

(** [String::substring(left, right)]: the characters of positions
    [left] (included) to [right] (excluded); the bounds are swapped when
    out of order, the result is empty when [left] is not below the
    length, and [right] is capped at the length. *)
Definition substring (s : string) (left right : Z) : string :=
  let l := Z.min left right in
  let r := Z.max left right in
  if (length s <=? l)%Z then ""
  else let r := Z.min r (length s) in
       String.substring (Z.to_nat l) (Z.to_nat (r - l)) s.

(** [String::substring(beginIndex)] *)
Definition substring_from (s : string) (beginIndex : Z) : string :=
  substring s beginIndex (length s).

(** [buff += c] *)
Definition concat (s : string) (c : ascii) : string :=
  s ++ String c "".

End WString.

(** ** Floating point *)

Definition float : Type := spec_float.
Definition double : Type := spec_float.

Definition float_of_double (d : double) : float :=
  match d with
  | S754_finite s m e => binary_round 24 128 s m e
  | _ => d
  end.

Definition double_of_float (x : float) : double :=
  match x with
  | S754_finite s m e => binary_round 53 1024 s m e
  | _ => x
  end.

(** The literal [0.0] and the result of a conversion that reads no number. *)
Definition float_zero : float := S754_zero false.

(** [x != y] on [float]: exact comparison, true whenever one side is a NaN. *)
Definition float_ne (x y : float) : bool := negb (SFeqb x y).

(** [x / 1000.0]: the operand is promoted to [double]. *)
Definition div_1000 (x : float) : double :=
  SFdiv 53 1024 (double_of_float x) (binary_normalize 53 1024 1000 0 false).

(** ** Sensors, log and output trace *)

Inductive sensor : Type :=
| sensor_IINST | sensor_ISOUSC | sensor_PAPP | sensor_BASE | sensor_HCHC
| sensor_HCHP | sensor_EJPHN | sensor_EJPHPM | sensor_IMAX.

Inductive text_sensor : Type :=
| sensor_ADCO | sensor_OPTARIF | sensor_PTEC | sensor_HHPHC.

Inductive log_level : Type := LOGD | LOGI | LOGW.

Inductive log_arg : Type :=
| arg_s (s : string)
| arg_f (x : double)
| arg_X (c : Z).

Inductive event : Type :=
| esp_log (lvl : log_level) (tag fmt : string) (args : list log_arg)
| switch_publish_state (state : bool)
| sensor_publish_state (s : sensor) (state : float)
| text_sensor_publish_state (s : text_sensor) (state : string).

(** ** The component's member variables *)

Record MyTicComponent : Type := mkTic {
  enable : bool;
  adco_updated : bool;
  optarif_updated : bool;
  iinst_updated : bool;
  isousc_updated : bool;
  papp_updated : bool;
  base_updated : bool;
  hchc_updated : bool;
  hchp_updated : bool;
  ejphn_updated : bool;
  ejphpm_updated : bool;
  ptec_updated : bool;
  imax_updated : bool;
  hhphc_updated : bool;
  iinst : float;
  isousc : float;
  papp : float;
  base : float;
  hchc : float;
  hchp : float;
  ejphn : float;
  ejphpm : float;
  imax : float;
  adco : string;
  optarif : string;
  ptec : string;
  hhphc : string
}.

Definition set_enable (v : bool) (t : MyTicComponent) : MyTicComponent :=
  mkTic v (adco_updated t) (optarif_updated t) (iinst_updated t)
    (isousc_updated t) (papp_updated t) (base_updated t) (hchc_updated t)
    (hchp_updated t) (ejphn_updated t) (ejphpm_updated t) (ptec_updated t)
    (imax_updated t) (hhphc_updated t) (iinst t) (isousc t) (papp t)
    (base t) (hchc t) (hchp t) (ejphn t) (ejphpm t) (imax t) (adco t)
    (optarif t) (ptec t) (hhphc t).

Definition set_adco_updated (v : bool) (t : MyTicComponent) : MyTicComponent :=
  mkTic (enable t) v (optarif_updated t) (iinst_updated t)
    (isousc_updated t) (papp_updated t) (base_updated t) (hchc_updated t)
    (hchp_updated t) (ejphn_updated t) (ejphpm_updated t) (ptec_updated t)
    (imax_updated t) (hhphc_updated t) (iinst t) (isousc t) (papp t)
    (base t) (hchc t) (hchp t) (ejphn t) (ejphpm t) (imax t) (adco t)
    (optarif t) (ptec t) (hhphc t).

Definition set_optarif_updated (v : bool) (t : MyTicComponent) : MyTicComponent :=
  mkTic (enable t) (adco_updated t) v (iinst_updated t) (isousc_updated t)
    (papp_updated t) (base_updated t) (hchc_updated t) (hchp_updated t)
    (ejphn_updated t) (ejphpm_updated t) (ptec_updated t) (imax_updated t)
    (hhphc_updated t) (iinst t) (isousc t) (papp t) (base t) (hchc t)
    (hchp t) (ejphn t) (ejphpm t) (imax t) (adco t) (optarif t) (ptec t)
    (hhphc t).

Definition set_iinst_updated (v : bool) (t : MyTicComponent) : MyTicComponent :=
  mkTic (enable t) (adco_updated t) (optarif_updated t) v (isousc_updated t)
    (papp_updated t) (base_updated t) (hchc_updated t) (hchp_updated t)
    (ejphn_updated t) (ejphpm_updated t) (ptec_updated t) (imax_updated t)
    (hhphc_updated t) (iinst t) (isousc t) (papp t) (base t) (hchc t)
    (hchp t) (ejphn t) (ejphpm t) (imax t) (adco t) (optarif t) (ptec t)
    (hhphc t).

Definition set_isousc_updated (v : bool) (t : MyTicComponent) : MyTicComponent :=
  mkTic (enable t) (adco_updated t) (optarif_updated t) (iinst_updated t) v
    (papp_updated t) (base_updated t) (hchc_updated t) (hchp_updated t)
    (ejphn_updated t) (ejphpm_updated t) (ptec_updated t) (imax_updated t)
    (hhphc_updated t) (iinst t) (isousc t) (papp t) (base t) (hchc t)
    (hchp t) (ejphn t) (ejphpm t) (imax t) (adco t) (optarif t) (ptec t)
    (hhphc t).

Definition set_papp_updated (v : bool) (t : MyTicComponent) : MyTicComponent :=
  mkTic (enable t) (adco_updated t) (optarif_updated t) (iinst_updated t)
    (isousc_updated t) v (base_updated t) (hchc_updated t) (hchp_updated t)
    (ejphn_updated t) (ejphpm_updated t) (ptec_updated t) (imax_updated t)
    (hhphc_updated t) (iinst t) (isousc t) (papp t) (base t) (hchc t)
    (hchp t) (ejphn t) (ejphpm t) (imax t) (adco t) (optarif t) (ptec t)
    (hhphc t).

Definition set_base_updated (v : bool) (t : MyTicComponent) : MyTicComponent :=
  mkTic (enable t) (adco_updated t) (optarif_updated t) (iinst_updated t)
    (isousc_updated t) (papp_updated t) v (hchc_updated t) (hchp_updated t)
    (ejphn_updated t) (ejphpm_updated t) (ptec_updated t) (imax_updated t)
    (hhphc_updated t) (iinst t) (isousc t) (papp t) (base t) (hchc t)
    (hchp t) (ejphn t) (ejphpm t) (imax t) (adco t) (optarif t) (ptec t)
    (hhphc t).

Definition set_hchc_updated (v : bool) (t : MyTicComponent) : MyTicComponent :=
  mkTic (enable t) (adco_updated t) (optarif_updated t) (iinst_updated t)
    (isousc_updated t) (papp_updated t) (base_updated t) v (hchp_updated t)
    (ejphn_updated t) (ejphpm_updated t) (ptec_updated t) (imax_updated t)
    (hhphc_updated t) (iinst t) (isousc t) (papp t) (base t) (hchc t)
    (hchp t) (ejphn t) (ejphpm t) (imax t) (adco t) (optarif t) (ptec t)
    (hhphc t).

Definition set_hchp_updated (v : bool) (t : MyTicComponent) : MyTicComponent :=
  mkTic (enable t) (adco_updated t) (optarif_updated t) (iinst_updated t)
    (isousc_updated t) (papp_updated t) (base_updated t) (hchc_updated t) v
    (ejphn_updated t) (ejphpm_updated t) (ptec_updated t) (imax_updated t)
    (hhphc_updated t) (iinst t) (isousc t) (papp t) (base t) (hchc t)
    (hchp t) (ejphn t) (ejphpm t) (imax t) (adco t) (optarif t) (ptec t)
    (hhphc t).

Definition set_ejphn_updated (v : bool) (t : MyTicComponent) : MyTicComponent :=
  mkTic (enable t) (adco_updated t) (optarif_updated t) (iinst_updated t)
    (isousc_updated t) (papp_updated t) (base_updated t) (hchc_updated t)
    (hchp_updated t) v (ejphpm_updated t) (ptec_updated t) (imax_updated t)
    (hhphc_updated t) (iinst t) (isousc t) (papp t) (base t) (hchc t)
    (hchp t) (ejphn t) (ejphpm t) (imax t) (adco t) (optarif t) (ptec t)
    (hhphc t).

Definition set_ejphpm_updated (v : bool) (t : MyTicComponent) : MyTicComponent :=
  mkTic (enable t) (adco_updated t) (optarif_updated t) (iinst_updated t)
    (isousc_updated t) (papp_updated t) (base_updated t) (hchc_updated t)
    (hchp_updated t) (ejphn_updated t) v (ptec_updated t) (imax_updated t)
    (hhphc_updated t) (iinst t) (isousc t) (papp t) (base t) (hchc t)
    (hchp t) (ejphn t) (ejphpm t) (imax t) (adco t) (optarif t) (ptec t)
    (hhphc t).

Definition set_ptec_updated (v : bool) (t : MyTicComponent) : MyTicComponent :=
  mkTic (enable t) (adco_updated t) (optarif_updated t) (iinst_updated t)
    (isousc_updated t) (papp_updated t) (base_updated t) (hchc_updated t)
    (hchp_updated t) (ejphn_updated t) (ejphpm_updated t) v (imax_updated t)
    (hhphc_updated t) (iinst t) (isousc t) (papp t) (base t) (hchc t)
    (hchp t) (ejphn t) (ejphpm t) (imax t) (adco t) (optarif t) (ptec t)
    (hhphc t).

Definition set_imax_updated (v : bool) (t : MyTicComponent) : MyTicComponent :=
  mkTic (enable t) (adco_updated t) (optarif_updated t) (iinst_updated t)
    (isousc_updated t) (papp_updated t) (base_updated t) (hchc_updated t)
    (hchp_updated t) (ejphn_updated t) (ejphpm_updated t) (ptec_updated t) v
    (hhphc_updated t) (iinst t) (isousc t) (papp t) (base t) (hchc t)
    (hchp t) (ejphn t) (ejphpm t) (imax t) (adco t) (optarif t) (ptec t)
    (hhphc t).

Definition set_hhphc_updated (v : bool) (t : MyTicComponent) : MyTicComponent :=
  mkTic (enable t) (adco_updated t) (optarif_updated t) (iinst_updated t)
    (isousc_updated t) (papp_updated t) (base_updated t) (hchc_updated t)
    (hchp_updated t) (ejphn_updated t) (ejphpm_updated t) (ptec_updated t)
    (imax_updated t) v (iinst t) (isousc t) (papp t) (base t) (hchc t)
    (hchp t) (ejphn t) (ejphpm t) (imax t) (adco t) (optarif t) (ptec t)
    (hhphc t).

Definition set_iinst (v : float) (t : MyTicComponent) : MyTicComponent :=
  mkTic (enable t) (adco_updated t) (optarif_updated t) (iinst_updated t)
    (isousc_updated t) (papp_updated t) (base_updated t) (hchc_updated t)
    (hchp_updated t) (ejphn_updated t) (ejphpm_updated t) (ptec_updated t)
    (imax_updated t) (hhphc_updated t) v (isousc t) (papp t) (base t)
    (hchc t) (hchp t) (ejphn t) (ejphpm t) (imax t) (adco t) (optarif t)
    (ptec t) (hhphc t).

Definition set_isousc (v : float) (t : MyTicComponent) : MyTicComponent :=
  mkTic (enable t) (adco_updated t) (optarif_updated t) (iinst_updated t)
    (isousc_updated t) (papp_updated t) (base_updated t) (hchc_updated t)
    (hchp_updated t) (ejphn_updated t) (ejphpm_updated t) (ptec_updated t)
    (imax_updated t) (hhphc_updated t) (iinst t) v (papp t) (base t)
    (hchc t) (hchp t) (ejphn t) (ejphpm t) (imax t) (adco t) (optarif t)
    (ptec t) (hhphc t).

Definition set_papp (v : float) (t : MyTicComponent) : MyTicComponent :=
  mkTic (enable t) (adco_updated t) (optarif_updated t) (iinst_updated t)
    (isousc_updated t) (papp_updated t) (base_updated t) (hchc_updated t)
    (hchp_updated t) (ejphn_updated t) (ejphpm_updated t) (ptec_updated t)
    (imax_updated t) (hhphc_updated t) (iinst t) (isousc t) v (base t)
    (hchc t) (hchp t) (ejphn t) (ejphpm t) (imax t) (adco t) (optarif t)
    (ptec t) (hhphc t).

Definition set_base (v : float) (t : MyTicComponent) : MyTicComponent :=
  mkTic (enable t) (adco_updated t) (optarif_updated t) (iinst_updated t)
    (isousc_updated t) (papp_updated t) (base_updated t) (hchc_updated t)
    (hchp_updated t) (ejphn_updated t) (ejphpm_updated t) (ptec_updated t)
    (imax_updated t) (hhphc_updated t) (iinst t) (isousc t) (papp t) v
    (hchc t) (hchp t) (ejphn t) (ejphpm t) (imax t) (adco t) (optarif t)
    (ptec t) (hhphc t).

Definition set_hchc (v : float) (t : MyTicComponent) : MyTicComponent :=
  mkTic (enable t) (adco_updated t) (optarif_updated t) (iinst_updated t)
    (isousc_updated t) (papp_updated t) (base_updated t) (hchc_updated t)
    (hchp_updated t) (ejphn_updated t) (ejphpm_updated t) (ptec_updated t)
    (imax_updated t) (hhphc_updated t) (iinst t) (isousc t) (papp t)
    (base t) v (hchp t) (ejphn t) (ejphpm t) (imax t) (adco t) (optarif t)
    (ptec t) (hhphc t).

Definition set_hchp (v : float) (t : MyTicComponent) : MyTicComponent :=
  mkTic (enable t) (adco_updated t) (optarif_updated t) (iinst_updated t)
    (isousc_updated t) (papp_updated t) (base_updated t) (hchc_updated t)
    (hchp_updated t) (ejphn_updated t) (ejphpm_updated t) (ptec_updated t)
    (imax_updated t) (hhphc_updated t) (iinst t) (isousc t) (papp t)
    (base t) (hchc t) v (ejphn t) (ejphpm t) (imax t) (adco t) (optarif t)
    (ptec t) (hhphc t).

Definition set_ejphn (v : float) (t : MyTicComponent) : MyTicComponent :=
  mkTic (enable t) (adco_updated t) (optarif_updated t) (iinst_updated t)
    (isousc_updated t) (papp_updated t) (base_updated t) (hchc_updated t)
    (hchp_updated t) (ejphn_updated t) (ejphpm_updated t) (ptec_updated t)
    (imax_updated t) (hhphc_updated t) (iinst t) (isousc t) (papp t)
    (base t) (hchc t) (hchp t) v (ejphpm t) (imax t) (adco t) (optarif t)
    (ptec t) (hhphc t).

Definition set_ejphpm (v : float) (t : MyTicComponent) : MyTicComponent :=
  mkTic (enable t) (adco_updated t) (optarif_updated t) (iinst_updated t)
    (isousc_updated t) (papp_updated t) (base_updated t) (hchc_updated t)
    (hchp_updated t) (ejphn_updated t) (ejphpm_updated t) (ptec_updated t)
    (imax_updated t) (hhphc_updated t) (iinst t) (isousc t) (papp t)
    (base t) (hchc t) (hchp t) (ejphn t) v (imax t) (adco t) (optarif t)
    (ptec t) (hhphc t).

Definition set_imax (v : float) (t : MyTicComponent) : MyTicComponent :=
  mkTic (enable t) (adco_updated t) (optarif_updated t) (iinst_updated t)
    (isousc_updated t) (papp_updated t) (base_updated t) (hchc_updated t)
    (hchp_updated t) (ejphn_updated t) (ejphpm_updated t) (ptec_updated t)
    (imax_updated t) (hhphc_updated t) (iinst t) (isousc t) (papp t)
    (base t) (hchc t) (hchp t) (ejphn t) (ejphpm t) v (adco t) (optarif t)
    (ptec t) (hhphc t).

Definition set_adco (v : string) (t : MyTicComponent) : MyTicComponent :=
  mkTic (enable t) (adco_updated t) (optarif_updated t) (iinst_updated t)
    (isousc_updated t) (papp_updated t) (base_updated t) (hchc_updated t)
    (hchp_updated t) (ejphn_updated t) (ejphpm_updated t) (ptec_updated t)
    (imax_updated t) (hhphc_updated t) (iinst t) (isousc t) (papp t)
    (base t) (hchc t) (hchp t) (ejphn t) (ejphpm t) (imax t) v (optarif t)
    (ptec t) (hhphc t).

Definition set_optarif (v : string) (t : MyTicComponent) : MyTicComponent :=
  mkTic (enable t) (adco_updated t) (optarif_updated t) (iinst_updated t)
    (isousc_updated t) (papp_updated t) (base_updated t) (hchc_updated t)
    (hchp_updated t) (ejphn_updated t) (ejphpm_updated t) (ptec_updated t)
    (imax_updated t) (hhphc_updated t) (iinst t) (isousc t) (papp t)
    (base t) (hchc t) (hchp t) (ejphn t) (ejphpm t) (imax t) (adco t) v
    (ptec t) (hhphc t).

Definition set_ptec (v : string) (t : MyTicComponent) : MyTicComponent :=
  mkTic (enable t) (adco_updated t) (optarif_updated t) (iinst_updated t)
    (isousc_updated t) (papp_updated t) (base_updated t) (hchc_updated t)
    (hchp_updated t) (ejphn_updated t) (ejphpm_updated t) (ptec_updated t)
    (imax_updated t) (hhphc_updated t) (iinst t) (isousc t) (papp t)
    (base t) (hchc t) (hchp t) (ejphn t) (ejphpm t) (imax t) (adco t)
    (optarif t) v (hhphc t).

Definition set_hhphc (v : string) (t : MyTicComponent) : MyTicComponent :=
  mkTic (enable t) (adco_updated t) (optarif_updated t) (iinst_updated t)
    (isousc_updated t) (papp_updated t) (base_updated t) (hchc_updated t)
    (hchp_updated t) (ejphn_updated t) (ejphpm_updated t) (ptec_updated t)
    (imax_updated t) (hhphc_updated t) (iinst t) (isousc t) (papp t)
    (base t) (hchc t) (hchp t) (ejphn t) (ejphpm t) (imax t) (adco t)
    (optarif t) (ptec t) v.

Definition initial : MyTicComponent :=
  mkTic false
    false false false false false false false false false false false false
    false
    float_zero float_zero float_zero float_zero float_zero float_zero
    float_zero float_zero float_zero
    "" "" "" "".

(** ** Member functions: state passing with an output trace *)

Definition action : Type := MyTicComponent -> MyTicComponent * list event.

Definition skip : action := fun t => (t, []).

Definition emit (e : event) : action := fun t => (t, [e]).

Definition assign (f : MyTicComponent -> MyTicComponent) : action :=
  fun t => (f t, []).

Definition andThen (a b : action) : action :=
  fun t => let (t1, e1) := a t in
           let (t2, e2) := b t1 in
           (t2, e1 ++ e2).

Notation "a ;; b" := (andThen a b) (at level 61, right associativity).

(** [if (c) { a }] where the condition reads member variables. *)
Definition when (c : MyTicComponent -> bool) (a : action) : action :=
  fun t => if c t then a t else skip t.

Definition ESP_LOGD (tag fmt : string) (args : list log_arg) : action :=
  emit (esp_log LOGD tag fmt args).
Definition ESP_LOGI (tag fmt : string) (args : list log_arg) : action :=
  emit (esp_log LOGI tag fmt args).
Definition ESP_LOGW (tag fmt : string) (args : list log_arg) : action :=
  emit (esp_log LOGW tag fmt args).

Definition write_state (state : bool) : action :=
  assign (set_enable state) ;;
  emit (switch_publish_state state).

Definition setup : action :=
  fun t => emit (switch_publish_state (enable t)) t.

(** [update()]: called every [time_interval]; publishes the variables
    flagged as updated and clears their flags, when the switch is on. *)
Definition update : action :=
  when enable
    (when adco_updated
       ((fun t => ESP_LOGI "Update" "ADCO update: %s" [arg_s (adco t)] t) ;;
        (fun t => emit (text_sensor_publish_state sensor_ADCO (adco t)) t) ;;
        assign (set_adco_updated false)) ;;
     when base_updated
       ((fun t => ESP_LOGI "Update" "BASE update: %.0f" [arg_f (div_1000 (base t))] t) ;;
        (fun t => emit (sensor_publish_state sensor_BASE (float_of_double (div_1000 (base t)))) t) ;;
        assign (set_base_updated false)) ;;
     when hchc_updated
       ((fun t => ESP_LOGI "Update" "HCHC update: %.0f" [arg_f (div_1000 (hchc t))] t) ;;
        (fun t => emit (sensor_publish_state sensor_HCHC (float_of_double (div_1000 (hchc t)))) t) ;;
        assign (set_hchc_updated false)) ;;
     when hchp_updated
       ((fun t => ESP_LOGI "Update" "HCHP update: %.0f" [arg_f (div_1000 (hchp t))] t) ;;
        (fun t => emit (sensor_publish_state sensor_HCHP (float_of_double (div_1000 (hchp t)))) t) ;;
        assign (set_hchp_updated false)) ;;
     when ejphn_updated
       ((fun t => ESP_LOGI "Update" "EJPHN update: %.0f" [arg_f (div_1000 (ejphn t))] t) ;;
        (fun t => emit (sensor_publish_state sensor_EJPHN (float_of_double (div_1000 (ejphn t)))) t) ;;
        assign (set_ejphn_updated false)) ;;
     when ejphpm_updated
       ((fun t => ESP_LOGI "Update" "EJPHPM update: %.0f" [arg_f (div_1000 (ejphpm t))] t) ;;
        (fun t => emit (sensor_publish_state sensor_EJPHPM (float_of_double (div_1000 (ejphpm t)))) t) ;;
        assign (set_ejphpm_updated false)) ;;
     when imax_updated
       ((fun t => ESP_LOGI "Update" "IMAX update: %.0f" [arg_f (double_of_float (imax t))] t) ;;
        (fun t => emit (sensor_publish_state sensor_IMAX (imax t)) t) ;;
        assign (set_imax_updated false)) ;;
     when isousc_updated
       ((fun t => ESP_LOGI "Update" "ISOUSC update: %.0f" [arg_f (double_of_float (isousc t))] t) ;;
        (fun t => emit (sensor_publish_state sensor_ISOUSC (isousc t)) t) ;;
        assign (set_isousc_updated false)) ;;
     when iinst_updated
       ((fun t => ESP_LOGI "Update" "IINST update: %.0f" [arg_f (double_of_float (iinst t))] t) ;;
        (fun t => emit (sensor_publish_state sensor_IINST (iinst t)) t) ;;
        assign (set_iinst_updated false)) ;;
     when papp_updated
       ((fun t => ESP_LOGI "Update" "PAPP update: %.0f" [arg_f (double_of_float (papp t))] t) ;;
        (fun t => emit (sensor_publish_state sensor_PAPP (papp t)) t) ;;
        assign (set_papp_updated false)) ;;
     when optarif_updated
       ((fun t => ESP_LOGI "Update" "OPTARIF update: %s" [arg_s (optarif t)] t) ;;
        (fun t => emit (text_sensor_publish_state sensor_OPTARIF (optarif t)) t) ;;
        assign (set_optarif_updated false)) ;;
     when ptec_updated
       ((fun t => ESP_LOGI "Update" "PTEC update: %s" [arg_s (ptec t)] t) ;;
        (fun t => emit (text_sensor_publish_state sensor_PTEC (ptec t)) t) ;;
        assign (set_ptec_updated false)) ;;
     when hhphc_updated
       ((fun t => ESP_LOGI "Update" "HHPHC update: %s" [arg_s (hhphc t)] t) ;;
        (fun t => emit (text_sensor_publish_state sensor_HHPHC (hhphc t)) t) ;;
        assign (set_hhphc_updated false))).

(** The positions [0, 1, ..., n - 1] visited by [for (int i = 0; i < n; i++)]. *)
Definition positions (n : Z) : list Z := map Z.of_nat (seq 0 (Z.to_nat n)).

(** The checksum loop of [processString] and the masking that follows. *)
Definition checksum_of_record (str : string) : Z :=
  let checksum :=
    fold_left (fun checksum i => char_add checksum (code (WString.charAt str i)))
              (positions (uint (WString.length str - 2))) 0%Z in
  (Z.land checksum 63 + 32)%Z.

Section Component.

(** [String::toFloat()] of the Arduino core. *)
Variable toFloat : string -> float.

(** [processCommand(label, value)]: stores a value read from the meter
    in the variable of its label and flags it for the next [update]. *)
Definition processCommand (label value : string) : action :=
  ESP_LOGD "tic" "tic_label %s" [arg_s label] ;;
  ESP_LOGD "tic" "tic_value %s" [arg_s value] ;;
  if label =? "ADCO" then
    when (fun t => negb (adco t =? value))
      (assign (set_adco value) ;; assign (set_adco_updated true))
  else if label =? "BASE" then
    when (fun t => float_ne (base t) (toFloat value))
      (assign (set_base (toFloat value)) ;; assign (set_base_updated true))
  else if label =? "ISOUSC" then
    when (fun t => float_ne (isousc t) (toFloat value))
      (assign (set_isousc (toFloat value)) ;; assign (set_isousc_updated true))
  else if label =? "IINST" then
    when (fun t => float_ne (iinst t) (toFloat value))
      (assign (set_iinst (toFloat value)) ;; assign (set_iinst_updated true))
  else if label =? "PAPP" then
    when (fun t => float_ne (papp t) (toFloat value))
      (assign (set_papp (toFloat value)) ;; assign (set_papp_updated true))
  else if label =? "OPTARIF" then
    when (fun t => negb (optarif t =? value))
      (assign (set_optarif value) ;; assign (set_optarif_updated true))
  else if label =? "HCHC" then
    when (fun t => float_ne (hchc t) (toFloat value))
      (assign (set_hchc (toFloat value)) ;; assign (set_hchc_updated true))
  else if label =? "HCHP" then
    when (fun t => float_ne (hchp t) (toFloat value))
      (assign (set_hchp (toFloat value)) ;; assign (set_hchp_updated true))
  else if label =? "EJPHN" then
    when (fun t => float_ne (ejphn t) (toFloat value))
      (assign (set_ejphn (toFloat value)) ;; assign (set_ejphn_updated true))
  else if label =? "EJPHPM" then
    when (fun t => float_ne (ejphpm t) (toFloat value))
      (assign (set_ejphpm (toFloat value)) ;; assign (set_ejphpm_updated true))
  else if label =? "PTEC" then
    when (fun t => negb (ptec t =? value))
      (assign (set_ptec value) ;; assign (set_ptec_updated true))
  else if label =? "IMAX" then
    when (fun t => float_ne (imax t) (toFloat value))
      (assign (set_imax (toFloat value)) ;; assign (set_imax_updated true))
  else if label =? "HHPHC" then
    when (fun t => negb (hhphc t =? value))
      (assign (set_hhphc value) ;; assign (set_hhphc_updated true))
  else
    ESP_LOGI "tic" "data ignored: %s %s" [arg_s label; arg_s value].

(** [processString(str)]: splits a record into label, value and
    checksum and hands label and value to [processCommand] when the
    checksum is the one computed. *)
Definition processString (str : string) : action :=
  ESP_LOGD "tic" "tic_received %s" [arg_s str] ;;
  let separator := " "%char in
  if (-1 <? WString.indexOf str separator)%Z then
    let label := WString.substring str 0 (WString.indexOf str separator) in
    let value := WString.substring_from str (WString.indexOf str separator + 1) in
    if (-1 <? WString.indexOf value separator)%Z then
      let value := WString.substring value 0 (WString.indexOf value separator) in
      let checksum := checksum_of_record str in
      let last := code (WString.charAt str (uint (WString.length str - 1))) in
      if (last =? checksum)%Z then
        processCommand label value
      else
        ESP_LOGW "Checksum"
          "Checksum error: %s - checksum: %02X - computed: %02X"
          [arg_s str; arg_X last; arg_X checksum]
    else skip
  else skip.

(** The [while (available() > 0)] loop of [loop()]: [rx] holds the bytes
    the UART makes available to this call, [buff] is the local buffer.
    The result is the buffer when the loop is left, the warnings logged
    and the bytes left unread. *)
Fixpoint read_available (rx : list ascii) (buff : string)
  : string * list event * list ascii :=
  match rx with
  | [] => (buff, [], [])
  | c :: rx' =>
      if Ascii.eqb c CR then (buff, [], rx')
      else
        let buff := WString.concat buff c in
        if Ascii.eqb c LF || (50 <? WString.length buff)%Z then
          let '(b, ev, rest) := read_available rx' "" in
          ((b,
            (if (50 <? WString.length buff)%Z
             then [esp_log LOGW "Buffer" "Buffer was too big, cleaned !!!" []]
             else []) ++ ev),
           rest)
        else read_available rx' buff
  end.

(** [loop()], called by [App.loop()], on the bytes [rx] of the UART:
    the component after the call, its output and the bytes left. *)
Definition loop (rx : list ascii) (t : MyTicComponent)
  : MyTicComponent * list event * list ascii :=
  if enable t then
    let '(buff, warnings, rest) := read_available rx "" in
    let (t', ev) :=
      (if WString.differs_from_empty buff then processString buff
       else skip) t in
    (t', warnings ++ ev, rest)
  else (t, [], rx).

End Component.

(** ** The number conversion *)

Definition digit_of (c : ascii) : option Z :=
  let n := code c in
  if ((48 <=? n) && (n <=? 57))%Z then Some (n - 48)%Z else None.

(** Reads the digits at the start of [s] into [acc], counting them. *)
Fixpoint read_digits (s : string) (acc : Z) (n : nat) : Z * nat * string :=
  match s with
  | String c s' =>
      match digit_of c with
      | Some d => read_digits s' (10 * acc + d)%Z (S n)
      | None => (acc, n, s)
      end
  | EmptyString => (acc, n, s)
  end.

(** The decimal number at the start of [s]: its sign, its digits read as
    an integer and the number of digits after the point; [None] when [s]
    does not start with a number. *)
Definition decimal_prefix (s : string) : option (bool * Z * nat) :=
  let (neg, s1) :=
    match s with
    | String "-" s' => (true, s')
    | String "+" s' => (false, s')
    | _ => (false, s)
    end in
  let '(ip, ni, s2) := read_digits s1 0%Z 0 in
  let '(m, nf) :=
    match s2 with
    | String "." s3 => let '(m, nf, _) := read_digits s3 ip 0 in (m, nf)
    | _ => (ip, 0)
    end in
  if (ni + nf =? 0)%nat then None else Some (neg, m, nf).

(** The [double] nearest to [m / d] for [m >= 0] and [d > 0], signed. *)
Definition double_of_quotient (neg : bool) (m : Z) (d : positive) : double :=
  match m with
  | Zpos p => SFdiv 53 1024 (S754_finite neg p 0) (S754_finite false d 0)
  | _ => S754_zero neg
  end.

(** Modelled from the spec: [String::toFloat] of the Arduino core, which
    the repository calls and does not contain.  The spec: "parse
    [rawValue] as a decimal number (parse failure is treated as value
    [0])".  The number is an optional sign, digits and an optional
    fractional part, read from the start of the string; a string that does
    not start with a number is a parse failure.  The core converts through
    [double] and narrows to [float]. *)
Definition String_toFloat (s : string) : float :=
  match decimal_prefix s with
  | Some (neg, m, nf) =>
      float_of_double (double_of_quotient neg m (Z.to_pos (10 ^ Z.of_nat nf)))
  | None => float_zero
  end.

(** ** Vocabulary of the specification *)

(** *** Records *)

Definition chars (s : string) : list ascii := list_ascii_of_string s.

Definition separator : ascii := " "%char.

Fixpoint count_char (ch : ascii) (s : string) : nat :=
  match s with
  | EmptyString => 0
  | String c s' => (if Ascii.eqb c ch then 1 else 0) + count_char ch s'
  end.

(** The characters before the first [ch] (all of [s] without one). *)
Fixpoint before (ch : ascii) (s : string) : string :=
  match s with
  | EmptyString => ""
  | String c s' => if Ascii.eqb c ch then "" else String c (before ch s')
  end.

(** The characters after the first [ch] (none without one). *)
Fixpoint after (ch : ascii) (s : string) : string :=
  match s with
  | EmptyString => ""
  | String c s' => if Ascii.eqb c ch then s' else after ch s'
  end.

Definition label_of_record (str : string) : string := before separator str.

Definition value_of_record (str : string) : string :=
  before separator (after separator str).

Definition last_char (str : string) : ascii := last (chars str) zero.

Definition sum_codes (l : list ascii) : Z :=
  fold_right (fun c acc => (code c + acc)%Z) 0%Z l.

(** The checksum of a sequence of characters: the sum of their codes,
    masked with [0x3F], plus [0x20]. *)
Definition checksum_over (l : list ascii) : Z :=
  (Z.land (sum_codes l) 63 + 32)%Z.

(** The checksum rule of a record: the checksum of all its characters but
    the last two. *)
Definition checksum_rule (str : string) : Z :=
  checksum_over (firstn (String.length str - 2) (chars str)).

(** *** Tracked fields *)

Inductive field : Type :=
| ADCO | OPTARIF | IINST | ISOUSC | PAPP | BASE | HCHC | HCHP | EJPHN
| EJPHPM | PTEC | IMAX | HHPHC.

Definition schema : list field :=
  [ADCO; OPTARIF; IINST; ISOUSC; PAPP; BASE; HCHC; HCHP; EJPHN; EJPHPM;
   PTEC; IMAX; HHPHC].

Definition label_of (f : field) : string :=
  match f with
  | ADCO => "ADCO" | OPTARIF => "OPTARIF" | IINST => "IINST"
  | ISOUSC => "ISOUSC" | PAPP => "PAPP" | BASE => "BASE" | HCHC => "HCHC"
  | HCHP => "HCHP" | EJPHN => "EJPHN" | EJPHPM => "EJPHPM" | PTEC => "PTEC"
  | IMAX => "IMAX" | HHPHC => "HHPHC"
  end.

Inductive stored : Type :=
| text (s : string)
| number (x : float).

Definition is_numeric (f : field) : bool :=
  match f with
  | ADCO | OPTARIF | PTEC | HHPHC => false
  | _ => true
  end.

(** The member variable holding the value of a field. *)
Definition currentValue (f : field) (t : MyTicComponent) : stored :=
  match f with
  | ADCO => text (adco t) | OPTARIF => text (optarif t)
  | PTEC => text (ptec t) | HHPHC => text (hhphc t)
  | IINST => number (iinst t) | ISOUSC => number (isousc t)
  | PAPP => number (papp t) | BASE => number (base t)
  | HCHC => number (hchc t) | HCHP => number (hchp t)
  | EJPHN => number (ejphn t) | EJPHPM => number (ejphpm t)
  | IMAX => number (imax t)
  end.

(** The [..._updated] flag of a field. *)
Definition dirty (f : field) (t : MyTicComponent) : bool :=
  match f with
  | ADCO => adco_updated t | OPTARIF => optarif_updated t
  | IINST => iinst_updated t | ISOUSC => isousc_updated t
  | PAPP => papp_updated t | BASE => base_updated t
  | HCHC => hchc_updated t | HCHP => hchp_updated t
  | EJPHN => ejphn_updated t | EJPHPM => ejphpm_updated t
  | PTEC => ptec_updated t | IMAX => imax_updated t
  | HHPHC => hhphc_updated t
  end.

Definition float_same (x y : float) : bool :=
  match x, y with
  | S754_zero a, S754_zero b => Bool.eqb a b
  | S754_infinity a, S754_infinity b => Bool.eqb a b
  | S754_nan, S754_nan => true
  | S754_finite a m e, S754_finite b n g =>
      Bool.eqb a b && Pos.eqb m n && Z.eqb e g
  | _, _ => false
  end.

(** Whether two stored values are the same value. *)
Definition stored_same (a b : stored) : bool :=
  match a, b with
  | text s, text s' => (s =? s')%string
  | number x, number y => float_same x y
  | _, _ => false
  end.

(** What [update] publishes for a field, and the line it logs before. *)
Definition publication (f : field) (t : MyTicComponent) : event :=
  match f with
  | ADCO => text_sensor_publish_state sensor_ADCO (adco t)
  | OPTARIF => text_sensor_publish_state sensor_OPTARIF (optarif t)
  | PTEC => text_sensor_publish_state sensor_PTEC (ptec t)
  | HHPHC => text_sensor_publish_state sensor_HHPHC (hhphc t)
  | BASE => sensor_publish_state sensor_BASE (float_of_double (div_1000 (base t)))
  | HCHC => sensor_publish_state sensor_HCHC (float_of_double (div_1000 (hchc t)))
  | HCHP => sensor_publish_state sensor_HCHP (float_of_double (div_1000 (hchp t)))
  | EJPHN => sensor_publish_state sensor_EJPHN (float_of_double (div_1000 (ejphn t)))
  | EJPHPM => sensor_publish_state sensor_EJPHPM (float_of_double (div_1000 (ejphpm t)))
  | IMAX => sensor_publish_state sensor_IMAX (imax t)
  | ISOUSC => sensor_publish_state sensor_ISOUSC (isousc t)
  | IINST => sensor_publish_state sensor_IINST (iinst t)
  | PAPP => sensor_publish_state sensor_PAPP (papp t)
  end.

Definition update_log (f : field) (t : MyTicComponent) : event :=
  match f with
  | ADCO => esp_log LOGI "Update" "ADCO update: %s" [arg_s (adco t)]
  | OPTARIF => esp_log LOGI "Update" "OPTARIF update: %s" [arg_s (optarif t)]
  | PTEC => esp_log LOGI "Update" "PTEC update: %s" [arg_s (ptec t)]
  | HHPHC => esp_log LOGI "Update" "HHPHC update: %s" [arg_s (hhphc t)]
  | BASE => esp_log LOGI "Update" "BASE update: %.0f" [arg_f (div_1000 (base t))]
  | HCHC => esp_log LOGI "Update" "HCHC update: %.0f" [arg_f (div_1000 (hchc t))]
  | HCHP => esp_log LOGI "Update" "HCHP update: %.0f" [arg_f (div_1000 (hchp t))]
  | EJPHN => esp_log LOGI "Update" "EJPHN update: %.0f" [arg_f (div_1000 (ejphn t))]
  | EJPHPM => esp_log LOGI "Update" "EJPHPM update: %.0f" [arg_f (div_1000 (ejphpm t))]
  | IMAX => esp_log LOGI "Update" "IMAX update: %.0f" [arg_f (double_of_float (imax t))]
  | ISOUSC => esp_log LOGI "Update" "ISOUSC update: %.0f" [arg_f (double_of_float (isousc t))]
  | IINST => esp_log LOGI "Update" "IINST update: %.0f" [arg_f (double_of_float (iinst t))]
  | PAPP => esp_log LOGI "Update" "PAPP update: %.0f" [arg_f (double_of_float (papp t))]
  end.

(** The value [update] publishes for a field: the stored value, divided
    by 1000 for the five index fields. *)
Definition published (f : field) (t : MyTicComponent) : stored :=
  match f with
  | BASE => number (float_of_double (div_1000 (base t)))
  | HCHC => number (float_of_double (div_1000 (hchc t)))
  | HCHP => number (float_of_double (div_1000 (hchp t)))
  | EJPHN => number (float_of_double (div_1000 (ejphn t)))
  | EJPHPM => number (float_of_double (div_1000 (ejphpm t)))
  | _ => currentValue f t
  end.

(** The fields whose value [update] divides by 1000 before it publishes
    it: the five index fields. *)
Definition has_divisor (f : field) : bool :=
  match f with
  | BASE | HCHC | HCHP | EJPHN | EJPHPM => true
  | _ => false
  end.

(** The order in which [update] goes through the fields. *)
Definition update_order : list field :=
  [ADCO; BASE; HCHC; HCHP; EJPHN; EJPHPM; IMAX; ISOUSC; IINST; PAPP;
   OPTARIF; PTEC; HHPHC].

(** The component with every flag cleared. *)
Definition cleared (t : MyTicComponent) : MyTicComponent :=
  mkTic (enable t)
    false false false false false false false false false false false false
    false
    (iinst t) (isousc t) (papp t) (base t) (hchc t) (hchp t) (ejphn t)
    (ejphpm t) (imax t) (adco t) (optarif t) (ptec t) (hhphc t).

(** *** Drain output *)

Definition label_of_sensor (s : sensor) : string :=
  match s with
  | sensor_IINST => "IINST" | sensor_ISOUSC => "ISOUSC"
  | sensor_PAPP => "PAPP" | sensor_BASE => "BASE" | sensor_HCHC => "HCHC"
  | sensor_HCHP => "HCHP" | sensor_EJPHN => "EJPHN"
  | sensor_EJPHPM => "EJPHPM" | sensor_IMAX => "IMAX"
  end.

Definition label_of_text_sensor (s : text_sensor) : string :=
  match s with
  | sensor_ADCO => "ADCO" | sensor_OPTARIF => "OPTARIF"
  | sensor_PTEC => "PTEC" | sensor_HHPHC => "HHPHC"
  end.

(** The sequence of (label, value) pairs published to the sensors. *)
Fixpoint drained (evs : list event) : list (string * stored) :=
  match evs with
  | [] => []
  | sensor_publish_state s x :: evs' =>
      (label_of_sensor s, number x) :: drained evs'
  | text_sensor_publish_state s v :: evs' =>
      (label_of_text_sensor s, text v) :: drained evs'
  | _ :: evs' => drained evs'
  end.

(** [drain]: the pairs an [update] publishes. *)
Definition drain (t : MyTicComponent) : list (string * stored) :=
  drained (snd (update t)).

(** Whether the trace shows a call of [processCommand]. *)
Definition forwarded (evs : list event) : bool :=
  existsb (fun e => match e with
                    | esp_log LOGD _ fmt _ => (fmt =? "tic_label %s")%string
                    | _ => false
                    end) evs.

(** *** Calls of the framework *)

Inductive call : Type :=
| call_setup
| call_write_state (state : bool)
| call_loop (rx : list ascii)
| call_processCommand (label value : string)
| call_update.

Section Runs.

Variable toFloat : string -> float.

Definition exec (c : call) (t : MyTicComponent) : MyTicComponent :=
  match c with
  | call_setup => fst (setup t)
  | call_write_state state => fst (write_state state t)
  | call_loop rx => fst (fst (loop toFloat rx t))
  | call_processCommand label value => fst (processCommand toFloat label value t)
  | call_update => fst (update t)
  end.

Definition run (cs : list call) (t : MyTicComponent) : MyTicComponent :=
  fold_left (fun t c => exec c t) cs t.

(** Whether the value of field [f] changed since the last drain, along
    the calls [cs] made from [t]; [drains c t] tells whether call [c]
    made in state [t] counts as a drain, [acc] whether the value had
    changed before [cs]. *)
Fixpoint changed_since_drain (drains : call -> MyTicComponent -> bool)
    (f : field) (cs : list call) (t : MyTicComponent) (acc : bool) : bool :=
  match cs with
  | [] => acc
  | c :: cs' =>
      let t' := exec c t in
      let changed := negb (stored_same (currentValue f t) (currentValue f t')) in
      changed_since_drain drains f cs' t'
        (if drains c t then false else acc || changed)
  end.

End Runs.

(** Every call of [update] counts as a drain. *)
Definition any_update (c : call) (t : MyTicComponent) : bool :=
  match c with call_update => true | _ => false end.

(** Only a call of [update] made while the switch is on counts. *)
Definition enabled_update (c : call) (t : MyTicComponent) : bool :=
  match c with call_update => enable t | _ => false end.


(** *** Auxiliary definitions for the proofs *)

(** The warning [processString] logs on a checksum mismatch, in terms of
    the checksum rule. *)
Definition checksum_error (str : string) : event :=
  esp_log LOGW "Checksum"
    "Checksum error: %s - checksum: %02X - computed: %02X"
    [arg_s str; arg_X (code (last_char str)); arg_X (checksum_rule str)].

(** The records handed to [processString], read off the trace. *)
Fixpoint emitted (evs : list event) : list string :=
  match evs with
  | [] => []
  | esp_log LOGD _ fmt [arg_s str] :: evs' =>
      if (fmt =? "tic_received %s")%string then str :: emitted evs'
      else emitted evs'
  | _ :: evs' => emitted evs'
  end.

Definition clear_flag (f : field) : MyTicComponent -> MyTicComponent :=
  match f with
  | ADCO => set_adco_updated false | OPTARIF => set_optarif_updated false
  | IINST => set_iinst_updated false | ISOUSC => set_isousc_updated false
  | PAPP => set_papp_updated false | BASE => set_base_updated false
  | HCHC => set_hchc_updated false | HCHP => set_hchp_updated false
  | EJPHN => set_ejphn_updated false | EJPHPM => set_ejphpm_updated false
  | PTEC => set_ptec_updated false | IMAX => set_imax_updated false
  | HHPHC => set_hhphc_updated false
  end.

(** One [if (..._updated) { ... }] block of [update]. *)
Definition block (f : field) : action :=
  when (dirty f)
    ((fun t => emit (update_log f t) t) ;;
     (fun t => emit (publication f t) t) ;;
     assign (clear_flag f)).

(** What the block of [f] puts on the trace. *)
Definition report (t : MyTicComponent) (f : field) : list event :=
  if dirty f t then [update_log f t; publication f t] else [].

(** The value [processCommand] compares with the stored one. *)
Definition incoming (toFloat : string -> float) (f : field) (value : string)
  : stored :=
  if is_numeric f then number (toFloat value) else text value.

(** The comparison [!=] of [processCommand] on stored values. *)
Definition differs (a b : stored) : bool :=
  match a, b with
  | text s, text s' => negb (s =? s')%string
  | number x, number y => float_ne x y
  | _, _ => true
  end.

(** The two lines every call of [processCommand] logs first. *)
Definition command_log (label value : string) : list event :=
  [esp_log LOGD "tic" "tic_label %s" [arg_s label];
   esp_log LOGD "tic" "tic_value %s" [arg_s value]].

(** The component switched on, as after [write_state(true)]. *)
Definition switched_on (t : MyTicComponent) : MyTicComponent :=
  fst (write_state true t).

(** Storing a value in the variable of a field and flagging the field. *)
Definition store_value (f : field) (v : stored) (t : MyTicComponent)
  : MyTicComponent :=
  match f, v with
  | ADCO, text s => set_adco_updated true (set_adco s t)
  | OPTARIF, text s => set_optarif_updated true (set_optarif s t)
  | PTEC, text s => set_ptec_updated true (set_ptec s t)
  | HHPHC, text s => set_hhphc_updated true (set_hhphc s t)
  | IINST, number x => set_iinst_updated true (set_iinst x t)
  | ISOUSC, number x => set_isousc_updated true (set_isousc x t)
  | PAPP, number x => set_papp_updated true (set_papp x t)
  | BASE, number x => set_base_updated true (set_base x t)
  | HCHC, number x => set_hchc_updated true (set_hchc x t)
  | HCHP, number x => set_hchp_updated true (set_hchp x t)
  | EJPHN, number x => set_ejphn_updated true (set_ejphn x t)
  | EJPHPM, number x => set_ejphpm_updated true (set_ejphpm x t)
  | IMAX, number x => set_imax_updated true (set_imax x t)
  | _, _ => t
  end.

(** The warning [loop] logs when it cleans a buffer of more than 50
    characters. *)
Definition buffer_warning : event :=
  esp_log LOGW "Buffer" "Buffer was too big, cleaned !!!" [].

Definition text_of (l : list ascii) : string := string_of_list_ascii l.

(** The bytes of a record on the wire: its characters and a CR. *)
Definition wire (str : string) : list ascii := chars str ++ [CR].

(** The binary32 numbers 12345678 and 12345.677734375, the nearest to
    12345.678. *)
Definition float_12345678 : float := S754_finite false 12345678 0.
Definition float_12345_678 : float := S754_finite false 12641974 (-10).

(** The bytes read since the last LF, when [seg] had been read since the
    last LF before [rx]. *)
Definition segment (seg rx : list ascii) : list ascii :=
  fold_left (fun seg c => if Ascii.eqb c LF then [] else seg ++ [c]) rx seg.

(** The last [n mod 51] of the [n] bytes of a segment. *)
Definition tail51 (seg : list ascii) : list ascii :=
  skipn (List.length seg - List.length seg mod 51) seg.

(** The buffer [loop] is left with when it has read the CR-free bytes
    [rx]: cleaned at each LF and at each 51st character, it holds the last
    [n mod 51] of the [n] bytes that follow the last LF. *)
Definition pending_of (rx : list ascii) : string :=
  text_of (tail51 (segment [] rx)).

(** *** Records as the meter sends them *)

(** The checksum character of a record body: the character whose code is
    the checksum of the body. *)
Definition checksum_char (body : string) : ascii :=
  ascii_of_nat (Z.to_nat (checksum_over (chars body))).

(** A body, a separator and a last character. *)
Definition closed_with (body : string) (k : ascii) : string :=
  (body ++ String separator (String k ""))%string.

(** The record of a label and a value: label, separator, value,
    separator, checksum character. *)
Definition record_of (label value : string) : string :=
  closed_with (label ++ String separator value)
              (checksum_char (label ++ String separator value)).

(** *** Kinds of calls *)

Definition is_write_state (c : call) : bool :=
  match c with call_write_state _ => true | _ => false end.

Definition is_update (c : call) : bool :=
  match c with call_update => true | _ => false end.

(** The calls the framework makes by itself: [setup], [loop], [update]. *)
Definition is_periodic (c : call) : bool :=
  match c with call_setup | call_loop _ | call_update => true | _ => false end.

(** A token of a record: no separator, no CR, no LF, no null character. *)
Definition plain (s : string) : bool :=
  forallb (fun c => negb (Ascii.eqb c separator || Ascii.eqb c CR
                          || Ascii.eqb c LF || Ascii.eqb c NUL))
          (chars s).

(** ** The earlier revision with five labels

    The revision of [MyTicComponent] that tracks ADCO, BASE, ISOUSC,
    IINST and PAPP only, with the same framer, parser and flags. *)

Module FiveLabels.

Record MyTicComponent : Type := mkTic {
enable : bool;
adco_updated : bool;
iinst_updated : bool;
isousc_updated : bool;
papp_updated : bool;
base_updated : bool;
iinst : float;
isousc : float;
papp : float;
base : float;
adco : string
}.

Definition set_enable (v : bool) (t : MyTicComponent) : MyTicComponent :=
mkTic v (adco_updated t) (iinst_updated t) (isousc_updated t)
  (papp_updated t) (base_updated t) (iinst t) (isousc t) (papp t) (base t)
  (adco t).

Definition set_adco_updated (v : bool) (t : MyTicComponent) : MyTicComponent :=
mkTic (enable t) v (iinst_updated t) (isousc_updated t) (papp_updated t)
  (base_updated t) (iinst t) (isousc t) (papp t) (base t) (adco t).

Definition set_iinst_updated (v : bool) (t : MyTicComponent) : MyTicComponent :=
mkTic (enable t) (adco_updated t) v (isousc_updated t) (papp_updated t)
  (base_updated t) (iinst t) (isousc t) (papp t) (base t) (adco t).

Definition set_isousc_updated (v : bool) (t : MyTicComponent) : MyTicComponent :=
mkTic (enable t) (adco_updated t) (iinst_updated t) v (papp_updated t)
  (base_updated t) (iinst t) (isousc t) (papp t) (base t) (adco t).

Definition set_papp_updated (v : bool) (t : MyTicComponent) : MyTicComponent :=
mkTic (enable t) (adco_updated t) (iinst_updated t) (isousc_updated t) v
  (base_updated t) (iinst t) (isousc t) (papp t) (base t) (adco t).

Definition set_base_updated (v : bool) (t : MyTicComponent) : MyTicComponent :=
mkTic (enable t) (adco_updated t) (iinst_updated t) (isousc_updated t)
  (papp_updated t) v (iinst t) (isousc t) (papp t) (base t) (adco t).

Definition set_iinst (v : float) (t : MyTicComponent) : MyTicComponent :=
mkTic (enable t) (adco_updated t) (iinst_updated t) (isousc_updated t)
  (papp_updated t) (base_updated t) v (isousc t) (papp t) (base t)
  (adco t).

Definition set_isousc (v : float) (t : MyTicComponent) : MyTicComponent :=
mkTic (enable t) (adco_updated t) (iinst_updated t) (isousc_updated t)
  (papp_updated t) (base_updated t) (iinst t) v (papp t) (base t) (adco t).

Definition set_papp (v : float) (t : MyTicComponent) : MyTicComponent :=
mkTic (enable t) (adco_updated t) (iinst_updated t) (isousc_updated t)
  (papp_updated t) (base_updated t) (iinst t) (isousc t) v (base t)
  (adco t).

Definition set_base (v : float) (t : MyTicComponent) : MyTicComponent :=
mkTic (enable t) (adco_updated t) (iinst_updated t) (isousc_updated t)
  (papp_updated t) (base_updated t) (iinst t) (isousc t) (papp t) v
  (adco t).

Definition set_adco (v : string) (t : MyTicComponent) : MyTicComponent :=
mkTic (enable t) (adco_updated t) (iinst_updated t) (isousc_updated t)
  (papp_updated t) (base_updated t) (iinst t) (isousc t) (papp t) (base t)
  v.
Definition initial : MyTicComponent :=
mkTic false false false false false false
  float_zero float_zero float_zero float_zero "".

Definition action : Type := MyTicComponent -> MyTicComponent * list event.

Definition skip : action := fun t => (t, []).

Definition emit (e : event) : action := fun t => (t, [e]).

Definition assign (f : MyTicComponent -> MyTicComponent) : action :=
fun t => (f t, []).

Definition andThen (a b : action) : action :=
fun t => let (t1, e1) := a t in
         let (t2, e2) := b t1 in
         (t2, e1 ++ e2).

Declare Scope five_scope.
Notation "a ;; b" := (andThen a b) (at level 61, right associativity)
: five_scope.
Local Open Scope five_scope.

Definition when (c : MyTicComponent -> bool) (a : action) : action :=
fun t => if c t then a t else skip t.

Definition ESP_LOGD (tag fmt : string) (args : list log_arg) : action :=
emit (esp_log LOGD tag fmt args).
Definition ESP_LOGI (tag fmt : string) (args : list log_arg) : action :=
emit (esp_log LOGI tag fmt args).
Definition ESP_LOGW (tag fmt : string) (args : list log_arg) : action :=
emit (esp_log LOGW tag fmt args).

Definition write_state (state : bool) : action :=
assign (set_enable state) ;;
emit (switch_publish_state state).

Definition setup : action :=
fun t => emit (switch_publish_state (enable t)) t.

Definition update : action :=
when enable
  (when adco_updated
     ((fun t => ESP_LOGI "Update" "ADCO update: %s" [arg_s (adco t)] t) ;;
      (fun t => emit (text_sensor_publish_state sensor_ADCO (adco t)) t) ;;
      assign (set_adco_updated false)) ;;
   when base_updated
     ((fun t => ESP_LOGI "Update" "BASE update: %.0f" [arg_f (div_1000 (base t))] t) ;;
      (fun t => emit (sensor_publish_state sensor_BASE (float_of_double (div_1000 (base t)))) t) ;;
      assign (set_base_updated false)) ;;
   when isousc_updated
     ((fun t => ESP_LOGI "Update" "ISOUSC update: %.0f" [arg_f (double_of_float (isousc t))] t) ;;
      (fun t => emit (sensor_publish_state sensor_ISOUSC (isousc t)) t) ;;
      assign (set_isousc_updated false)) ;;
   when iinst_updated
     ((fun t => ESP_LOGI "Update" "IINST update: %.0f" [arg_f (double_of_float (iinst t))] t) ;;
      (fun t => emit (sensor_publish_state sensor_IINST (iinst t)) t) ;;
      assign (set_iinst_updated false)) ;;
   when papp_updated
     ((fun t => ESP_LOGI "Update" "PAPP update: %.0f" [arg_f (double_of_float (papp t))] t) ;;
      (fun t => emit (sensor_publish_state sensor_PAPP (papp t)) t) ;;
      assign (set_papp_updated false))).

Section Component.

Variable toFloat : string -> float.

Definition processCommand (label value : string) : action :=
ESP_LOGD "tic" "tic_label %s" [arg_s label] ;;
ESP_LOGD "tic" "tic_value %s" [arg_s value] ;;
if label =? "ADCO" then
  when (fun t => negb (adco t =? value))
    (assign (set_adco value) ;; assign (set_adco_updated true))
else if label =? "BASE" then
  when (fun t => float_ne (base t) (toFloat value))
    (assign (set_base (toFloat value)) ;; assign (set_base_updated true))
else if label =? "ISOUSC" then
  when (fun t => float_ne (isousc t) (toFloat value))
    (assign (set_isousc (toFloat value)) ;; assign (set_isousc_updated true))
else if label =? "IINST" then
  when (fun t => float_ne (iinst t) (toFloat value))
    (assign (set_iinst (toFloat value)) ;; assign (set_iinst_updated true))
else if label =? "PAPP" then
  when (fun t => float_ne (papp t) (toFloat value))
    (assign (set_papp (toFloat value)) ;; assign (set_papp_updated true))
else
  ESP_LOGI "tic" "data ignored: %s %s" [arg_s label; arg_s value].

Definition processString (str : string) : action :=
ESP_LOGD "tic" "tic_received %s" [arg_s str] ;;
let separator := " "%char in
if (-1 <? WString.indexOf str separator)%Z then
  let label := WString.substring str 0 (WString.indexOf str separator) in
  let value := WString.substring_from str (WString.indexOf str separator + 1) in
  if (-1 <? WString.indexOf value separator)%Z then
    let value := WString.substring value 0 (WString.indexOf value separator) in
    let checksum := checksum_of_record str in
    let last := code (WString.charAt str (uint (WString.length str - 1))) in
    if (last =? checksum)%Z then
      processCommand label value
    else
      ESP_LOGW "Checksum"
        "Checksum error: %s - checksum: %02X - computed: %02X"
        [arg_s str; arg_X last; arg_X checksum]
  else skip
else skip.

Definition loop (rx : list ascii) (t : MyTicComponent)
: MyTicComponent * list event * list ascii :=
if enable t then
  let '(buff, warnings, rest) := read_available rx "" in
  let (t', ev) :=
    (if WString.differs_from_empty buff then processString buff
     else skip) t in
  (t', warnings ++ ev, rest)
else (t, [], rx).

Definition exec (c : call) (t : MyTicComponent) : MyTicComponent :=
match c with
| call_setup => fst (setup t)
| call_write_state state => fst (write_state state t)
| call_loop rx => fst (fst (loop rx t))
| call_processCommand label value => fst (processCommand label value t)
| call_update => fst (update t)
end.

Definition run (cs : list call) (t : MyTicComponent) : MyTicComponent :=
fold_left (fun t c => exec c t) cs t.

End Component.

Definition drain (t : MyTicComponent) : list (string * stored) :=
drained (snd (update t)).

End FiveLabels.

(** The variables of the current revision that the earlier one has. *)
Definition earlier_view (t : MyTicComponent) : FiveLabels.MyTicComponent :=
  FiveLabels.mkTic (enable t)
    (adco_updated t) (iinst_updated t) (isousc_updated t) (papp_updated t)
    (base_updated t)
    (iinst t) (isousc t) (papp t) (base t) (adco t).

(** The labels of the earlier revision. *)
Definition earlier_label (label : string) : bool :=
  existsb (String.eqb label) ["ADCO"; "BASE"; "ISOUSC"; "IINST"; "PAPP"].

(** ** The first revision, without flags

    The revision of [MyTicComponent] that has no [..._updated] flag: its
    [processCommand] goes through its five tests one after the other,
    and its [update] publishes the five values at every call.  Its
    [processString] logs the checksum, a [char], with the format [%s],
    and is left out with [loop], which calls it. *)

Module Unflagged.

Record MyTicComponent : Type := mkTic {
enable : bool;
iinst : float;
isousc : float;
papp : float;
base : float;
adco : string
}.

Definition set_enable (v : bool) (t : MyTicComponent) : MyTicComponent :=
mkTic v (iinst t) (isousc t) (papp t) (base t) (adco t).

Definition set_iinst (v : float) (t : MyTicComponent) : MyTicComponent :=
mkTic (enable t) v (isousc t) (papp t) (base t) (adco t).

Definition set_isousc (v : float) (t : MyTicComponent) : MyTicComponent :=
mkTic (enable t) (iinst t) v (papp t) (base t) (adco t).

Definition set_papp (v : float) (t : MyTicComponent) : MyTicComponent :=
mkTic (enable t) (iinst t) (isousc t) v (base t) (adco t).

Definition set_base (v : float) (t : MyTicComponent) : MyTicComponent :=
mkTic (enable t) (iinst t) (isousc t) (papp t) v (adco t).

Definition set_adco (v : string) (t : MyTicComponent) : MyTicComponent :=
mkTic (enable t) (iinst t) (isousc t) (papp t) (base t) v.
Definition initial : MyTicComponent :=
mkTic true float_zero float_zero float_zero float_zero "".

Definition action : Type := MyTicComponent -> MyTicComponent * list event.

Definition skip : action := fun t => (t, []).

Definition emit (e : event) : action := fun t => (t, [e]).

Definition assign (f : MyTicComponent -> MyTicComponent) : action :=
fun t => (f t, []).

Definition andThen (a b : action) : action :=
fun t => let (t1, e1) := a t in
         let (t2, e2) := b t1 in
         (t2, e1 ++ e2).

Declare Scope unflagged_scope.
Notation "a ;; b" := (andThen a b) (at level 61, right associativity)
: unflagged_scope.
Local Open Scope unflagged_scope.

Definition when (c : MyTicComponent -> bool) (a : action) : action :=
fun t => if c t then a t else skip t.

Definition ESP_LOGD (tag fmt : string) (args : list log_arg) : action :=
emit (esp_log LOGD tag fmt args).

Definition write_state (state : bool) : action :=
assign (set_enable state) ;;
emit (switch_publish_state state).

Definition setup : action :=
fun t => emit (switch_publish_state (enable t)) t.

Definition update : action :=
(fun t => emit (text_sensor_publish_state sensor_ADCO (adco t)) t) ;;
(fun t => emit (sensor_publish_state sensor_BASE (float_of_double (div_1000 (base t)))) t) ;;
(fun t => emit (sensor_publish_state sensor_ISOUSC (isousc t)) t) ;;
(fun t => emit (sensor_publish_state sensor_IINST (iinst t)) t) ;;
(fun t => emit (sensor_publish_state sensor_PAPP (papp t)) t).

Section Component.

Variable toFloat : string -> float.

Definition processCommand (label value : string) : action :=
ESP_LOGD "tic" "tic_label %s" [arg_s label] ;;
ESP_LOGD "tic" "tic_value %s" [arg_s value] ;;
(if label =? "ADCO" then
   when (fun t => negb (adco t =? value)) (assign (set_adco value))
 else skip) ;;
(if label =? "BASE" then
   when (fun t => float_ne (base t) (toFloat value))
     (assign (set_base (toFloat value)))
 else skip) ;;
(if label =? "ISOUSC" then
   when (fun t => float_ne (isousc t) (toFloat value))
     (assign (set_isousc (toFloat value)))
 else skip) ;;
(if label =? "IINST" then
   when (fun t => float_ne (iinst t) (toFloat value))
     (assign (set_iinst (toFloat value)))
 else skip) ;;
(if label =? "PAPP" then
   when (fun t => float_ne (papp t) (toFloat value))
     (assign (set_papp (toFloat value)))
 else skip).

End Component.

Definition drain (t : MyTicComponent) : list (string * stored) :=
drained (snd (update t)).

End Unflagged.

(** The variables of the current revision that the first one has. *)
Definition unflagged_view (t : MyTicComponent) : Unflagged.MyTicComponent :=
  Unflagged.mkTic (enable t) (iinst t) (isousc t) (papp t) (base t) (adco t).

(** * Properties *)

(** None of the characters listed is the one looked for. *)
Ltac not_listed :=
  simpl; let H := fresh in
  intros H; repeat (destruct H as [H|H]; [discriminate H|]); exact H.

(** * Arduino strings *)

Lemma length_nonneg (s : string) : (0 <= WString.length s)%Z.
Proof. unfold WString.length; lia. Qed.

Lemma length_append (a b : string) :
  String.length (a ++ b)%string = String.length a + String.length b.
Proof. induction a; simpl; congruence. Qed.

Lemma length_chars (s : string) : List.length (chars s) = String.length s.
Proof. unfold chars; induction s; simpl; congruence. Qed.

Lemma count_char_absent (ch : ascii) (s : string) :
  ~ In ch (chars s) -> count_char ch s = 0.
Proof.
  unfold chars. induction s as [|c s IH]; simpl; intros H.
  - reflexivity.
  - destruct (Ascii.eqb_spec c ch) as [->|_].
    + exfalso. apply H. left. reflexivity.
    + apply IH. intros I. apply H. right. exact I.
Qed.

Lemma count_char_present (ch : ascii) (s : string) :
  count_char ch s = 0 -> ~ In ch (chars s).
Proof.
  unfold chars. induction s as [|c s IH]; simpl; intros H.
  - intros [].
  - destruct (Ascii.eqb_spec c ch) as [->|N]; [discriminate|].
    intros [E|I]; [contradiction | exact (IH H I)].
Qed.

Lemma split_at_first (ch : ascii) (s : string) :
  count_char ch s <> 0 -> s = (before ch s ++ String ch (after ch s))%string.
Proof.
  induction s as [|c s IH]; simpl; intros H.
  - congruence.
  - destruct (Ascii.eqb_spec c ch) as [->|Hc]; simpl.
    + reflexivity.
    + f_equal; apply IH; exact H.
Qed.

Lemma count_after (ch : ascii) (s : string) :
  count_char ch (after ch s) = Nat.pred (count_char ch s).
Proof.
  induction s as [|c s IH]; simpl.
  - reflexivity.
  - destruct (Ascii.eqb c ch); simpl; [reflexivity | exact IH].
Qed.

(** A character counted in the characters after the first [ch] is
    counted in the string. *)
Lemma count_after_le (c ch : ascii) (s : string) :
  count_char c (after ch s) <= count_char c s.
Proof.
  induction s as [|a s IH]; simpl.
  - lia.
  - destruct (Ascii.eqb a ch); lia.
Qed.

Lemma indexOf_absent (ch : ascii) (s : string) :
  count_char ch s = 0 -> WString.indexOf s ch = (-1)%Z.
Proof.
  induction s as [|c s IH]; simpl; intros H.
  - reflexivity.
  - destruct (Ascii.eqb c ch); simpl in H; [discriminate|].
    rewrite (IH H). destruct (Ascii.eqb c NUL); reflexivity.
Qed.

(** What [indexOf] finds is the first occurrence. *)
Lemma indexOf_found (ch : ascii) (s : string) :
  (-1 <? WString.indexOf s ch)%Z = true ->
  count_char ch s <> 0
  /\ WString.indexOf s ch = WString.length (before ch s).
Proof.
  unfold WString.length.
  induction s as [|c s IH]; simpl.
  - discriminate.
  - destruct (Ascii.eqb c ch); simpl.
    + intros _. split; [discriminate | reflexivity].
    + destruct (Ascii.eqb c NUL); [discriminate|].
      destruct (Z.ltb_spec (WString.indexOf s ch) 0) as [Hneg|Hpos];
        [discriminate|].
      intros _.
      destruct IH as [Hc Hi]; [apply Z.ltb_lt; lia|].
      split; [exact Hc | lia].
Qed.

(** In a string without the null character [indexOf] finds the first
    occurrence there is. *)
Lemma indexOf_present (ch : ascii) (s : string) :
  count_char NUL s = 0 ->
  count_char ch s <> 0 ->
  WString.indexOf s ch = WString.length (before ch s).
Proof.
  unfold WString.length.
  induction s as [|c s IH]; simpl; intros H0 H.
  - congruence.
  - destruct (Ascii.eqb c ch); simpl in *.
    + reflexivity.
    + destruct (Ascii.eqb c NUL); [discriminate|]. simpl in H0.
      rewrite (IH H0 H).
      destruct (Z.ltb_spec (Z.of_nat (String.length (before ch s))) 0); lia.
Qed.

(** A string without the null character differs from [""] as a C string
    when it is not empty. *)
Lemma differs_from_empty_clean (s : string) :
  count_char NUL s = 0 ->
  WString.differs_from_empty s = negb (s =? "")%string.
Proof.
  destruct s as [|c s]; simpl; [reflexivity|].
  destruct (Ascii.eqb c NUL); [discriminate | reflexivity].
Qed.

Lemma substring_prefix (a b : string) :
  String.substring 0 (String.length a) (a ++ b)%string = a.
Proof.
  induction a as [|c a IH]; simpl.
  - destruct b; reflexivity.
  - f_equal; exact IH.
Qed.

Lemma substring_all (s : string) : String.substring 0 (String.length s) s = s.
Proof. induction s; simpl; congruence. Qed.

Lemma substring_skip (a b : string) (n : nat) :
  String.substring (String.length a) n (a ++ b)%string = String.substring 0 n b.
Proof. induction a as [|c a IH]; simpl; [reflexivity | exact IH]. Qed.

Lemma substring_before (ch : ascii) (s : string) :
  (-1 <? WString.indexOf s ch)%Z = true ->
  WString.substring s 0 (WString.indexOf s ch) = before ch s.
Proof.
  intros G. destruct (indexOf_found _ _ G) as [H ->].
  pose proof (split_at_first _ _ H) as E.
  remember (before ch s) as b eqn:Eb. remember (after ch s) as a eqn:Ea.
  clear Eb Ea H. subst s.
  unfold WString.substring, WString.length.
  rewrite length_append; simpl String.length.
  rewrite Z.min_l, Z.max_r by lia.
  destruct (Z.leb_spec (Z.of_nat (String.length b + S (String.length a))) 0) as [Hle|_]; [lia|].
  rewrite Z.min_l by lia.
  rewrite Z.sub_0_r, Nat2Z.id. simpl Z.to_nat.
  apply substring_prefix.
Qed.

Lemma append_assoc_char (b a : string) (ch : ascii) :
  (b ++ String ch a)%string = ((b ++ String ch "") ++ a)%string.
Proof. induction b; simpl; congruence. Qed.

Lemma substring_after (ch : ascii) (s : string) :
  (-1 <? WString.indexOf s ch)%Z = true ->
  WString.substring_from s (WString.indexOf s ch + 1) = after ch s.
Proof.
  intros G. destruct (indexOf_found _ _ G) as [H ->].
  pose proof (split_at_first _ _ H) as E.
  remember (before ch s) as b eqn:Eb. remember (after ch s) as a eqn:Ea.
  clear Eb Ea H. subst s.
  unfold WString.substring_from, WString.substring, WString.length.
  rewrite length_append; simpl String.length.
  rewrite Z.min_l, Z.max_r by lia.
  destruct (Z.leb_spec (Z.of_nat (String.length b + S (String.length a)))
              (Z.of_nat (String.length b) + 1)) as [Hle|Hlt].
  - assert (String.length a = 0) as E0 by lia.
    destruct a; [reflexivity | discriminate].
  - rewrite Z.min_id.
    replace (Z.to_nat (Z.of_nat (String.length b) + 1))
      with (String.length (b ++ String ch "")%string).
    2:{ rewrite length_append; simpl; lia. }
    replace (Z.to_nat (Z.of_nat (String.length b + S (String.length a)) - (Z.of_nat (String.length b) + 1)))
      with (String.length a) by lia.
    rewrite (append_assoc_char b a ch), substring_skip. apply substring_all.
Qed.

(** * The checksum *)

Lemma charAt_tail (c : ascii) (s : string) (i : nat) :
  WString.charAt (String c s) (Z.of_nat (S i)) = WString.charAt s (Z.of_nat i).
Proof.
  unfold WString.charAt.
  destruct (Z.ltb_spec (Z.of_nat (S i)) 0); [lia|].
  destruct (Z.ltb_spec (Z.of_nat i) 0); [lia|].
  rewrite !Nat2Z.id. reflexivity.
Qed.

Lemma codes_at_positions (s : string) (n : nat) :
  n <= String.length s ->
  map (fun i => code (WString.charAt s (Z.of_nat i))) (seq 0 n)
  = map code (firstn n (chars s)).
Proof.
  revert n. induction s as [|c s IH]; intros [|n] Hn; simpl in *; try lia; try reflexivity.
  f_equal.
  rewrite <- seq_shift, map_map.
  rewrite <- (IH n) by lia.
  apply map_ext. intros i. rewrite charAt_tail. reflexivity.
Qed.

Lemma charAt_last (s : string) :
  s <> "" ->
  WString.charAt s (Z.of_nat (String.length s) - 1) = last_char s.
Proof.
  unfold last_char, chars.
  induction s as [|c s IH]; intros Hs; [congruence|].
  destruct s as [|c' s'].
  - reflexivity.
  - replace (Z.of_nat (String.length (String c (String c' s'))) - 1)%Z
      with (Z.of_nat (S (String.length s'))) by (simpl String.length; lia).
    rewrite charAt_tail.
    replace (Z.of_nat (String.length s'))
      with (Z.of_nat (String.length (String c' s')) - 1)%Z by (simpl String.length; lia).
    rewrite IH by discriminate. reflexivity.
Qed.

Lemma land_63_mod_256 (a b : Z) :
  Z.land (a mod 256 + b) 63 = Z.land (a + b) 63.
Proof.
  change 63%Z with (Z.ones 6). rewrite !Z.land_ones by lia.
  change (2 ^ 6)%Z with 64%Z.
  rewrite (Z.div_mod a 256) at 2 by lia.
  replace (256 * (a / 256) + a mod 256 + b)%Z
    with (a mod 256 + b + (4 * (a / 256)) * 64)%Z by lia.
  rewrite Z.mod_add by lia. reflexivity.
Qed.

Lemma char_sum_low_bits (l : list Z) (acc : Z) :
  Z.land (fold_left char_add l acc) 63
  = Z.land (acc + fold_right Z.add 0%Z l) 63.
Proof.
  revert acc. induction l as [|x l IH]; intros acc; simpl.
  - rewrite Z.add_0_r. reflexivity.
  - rewrite IH. unfold char_add. rewrite land_63_mod_256. f_equal. lia.
Qed.

Lemma sum_codes_map (l : list ascii) :
  fold_right Z.add 0%Z (map code l) = sum_codes l.
Proof. unfold sum_codes; induction l; simpl; congruence. Qed.

Lemma uint_small (z : Z) : (0 <= z < 4294967296)%Z -> uint z = z.
Proof. intros H. unfold uint. apply Z.mod_small. exact H. Qed.

Lemma fold_left_through_map {A B C : Type} (g : A -> B) (f : C -> B -> C)
    (l : list A) (acc : C) :
  fold_left f (map g l) acc = fold_left (fun a x => f a (g x)) l acc.
Proof. revert acc; induction l; simpl; intros; [reflexivity | apply IHl]. Qed.

(** The loop of the code, with its 8-bit accumulator, computes the
    checksum rule on every record of at least two characters. *)
Lemma checksum_of_record_rule (str : string) :
  2 <= String.length str ->
  (WString.length str <= INT_MAX)%Z ->
  checksum_of_record str = checksum_rule str.
Proof.
  intros H2 H32. unfold checksum_of_record, checksum_rule, checksum_over, positions.
  unfold WString.length, INT_MAX in *.
  rewrite uint_small by lia.
  replace (Z.to_nat (Z.of_nat (String.length str) - 2)) with (String.length str - 2) by lia.
  f_equal.
  rewrite <- (fold_left_through_map (fun i => code (WString.charAt str i)) char_add).
  rewrite map_map, codes_at_positions by lia.
  rewrite char_sum_low_bits, sum_codes_map. reflexivity.
Qed.

(** * The record parser *)

Lemma count_le_length (ch : ascii) (s : string) :
  count_char ch s <= String.length s.
Proof.
  induction s as [|c s IH]; simpl; [lia|].
  destruct (Ascii.eqb c ch); lia.
Qed.

(** In a string without the null character the guard of [processString]
    tests whether the separator occurs. *)
Lemma indexOf_guard (ch : ascii) (s : string) :
  count_char NUL s = 0 ->
  (-1 <? WString.indexOf s ch)%Z = negb (Nat.eqb (count_char ch s) 0).
Proof.
  intros H0.
  destruct (Nat.eqb_spec (count_char ch s) 0) as [E|E]; simpl.
  - rewrite (indexOf_absent _ _ E). reflexivity.
  - rewrite (indexOf_present _ _ H0 E).
    pose proof (length_nonneg (before ch s)).
    apply Z.ltb_lt. lia.
Qed.

(** A record without two separators is dropped without a word. *)
Lemma processString_malformed (toFloat : string -> float) (str : string)
    (t : MyTicComponent) :
  count_char separator str < 2 ->
  processString toFloat str t
  = (t, [esp_log LOGD "tic" "tic_received %s" [arg_s str]]).
Proof.
  unfold separator. intros H. unfold processString.
  destruct (-1 <? WString.indexOf str " "%char)%Z eqn:G1; [|reflexivity].
  rewrite substring_after by exact G1.
  destruct (-1 <? WString.indexOf (after " "%char str) " "%char)%Z eqn:G2;
    [|reflexivity].
  destruct (indexOf_found _ _ G1) as [E1 _].
  destruct (indexOf_found _ _ G2) as [E2 _].
  rewrite count_after in E2. lia.
Qed.

(** With two separators the record reaches the checksum test, which is
    the checksum rule against the last character. *)
Lemma processString_wellformed (toFloat : string -> float) (str : string)
    (t : MyTicComponent) :
  count_char NUL str = 0 ->
  2 <= count_char separator str ->
  (WString.length str <= INT_MAX)%Z ->
  processString toFloat str t =
    (ESP_LOGD "tic" "tic_received %s" [arg_s str] ;;
     if (code (last_char str) =? checksum_rule str)%Z
     then processCommand toFloat (label_of_record str) (value_of_record str)
     else emit (checksum_error str)) t.
Proof.
  intros H0 H2 H32.
  unfold label_of_record, value_of_record, separator in *.
  pose proof (count_le_length " "%char str) as Hlen.
  assert (H0' : count_char NUL (after " "%char str) = 0).
  { pose proof (count_after_le NUL " "%char str). lia. }
  assert (G1 : (-1 <? WString.indexOf str " "%char)%Z = true).
  { rewrite indexOf_guard by exact H0.
    destruct (Nat.eqb_spec (count_char " "%char str) 0); [lia | reflexivity]. }
  assert (G2 : (-1 <? WString.indexOf (after " "%char str) " "%char)%Z = true).
  { rewrite indexOf_guard by exact H0'. rewrite count_after.
    destruct (Nat.eqb_spec (Nat.pred (count_char " "%char str)) 0);
      [lia | reflexivity]. }
  unfold processString.
  rewrite G1.
  rewrite substring_before, substring_after by exact G1.
  rewrite G2.
  rewrite substring_before by exact G2.
  cbv iota.
  rewrite checksum_of_record_rule by (assumption || lia).
  unfold WString.length, INT_MAX in *.
  rewrite uint_small by lia.
  rewrite charAt_last by (intros ->; simpl in H2; lia).
  reflexivity.
Qed.

(** * The store: [update] *)

Lemma emit_then (e : event) (a : action) (t : MyTicComponent) :
  (emit e ;; a) t = (fst (a t), e :: snd (a t)).
Proof. unfold andThen, emit. destruct (a t); reflexivity. Qed.

Lemma clear_flag_clean (f : field) (t : MyTicComponent) :
  dirty f t = false -> clear_flag f t = t.
Proof. destruct t, f; simpl; intros ->; reflexivity. Qed.

Lemma block_run (f : field) (t : MyTicComponent) :
  block f t = (clear_flag f t, report t f).
Proof.
  unfold block, report, when.
  destruct (dirty f t) eqn:D.
  - reflexivity.
  - rewrite clear_flag_clean by exact D. reflexivity.
Qed.

Lemma update_blocks (t : MyTicComponent) :
  update t =
  when enable
    (block ADCO ;; block BASE ;; block HCHC ;; block HCHP ;; block EJPHN ;;
     block EJPHPM ;; block IMAX ;; block ISOUSC ;; block IINST ;;
     block PAPP ;; block OPTARIF ;; block PTEC ;; block HHPHC) t.
Proof. reflexivity. Qed.

(** [update] with the switch on: all flags cleared, and on the trace the
    report of every flagged field, in the order of the code. *)
Lemma update_enabled (t : MyTicComponent) :
  enable t = true ->
  update t = (cleared t, flat_map (report t) update_order).
Proof.
  intros En. rewrite update_blocks. unfold when. rewrite En.
  unfold andThen.
  repeat (rewrite block_run; cbv beta iota).
  unfold update_order, flat_map. rewrite app_nil_r.
  destruct t. reflexivity.
Qed.

Lemma update_disabled (t : MyTicComponent) :
  enable t = false -> update t = (t, []).
Proof. intros En. unfold update, when. rewrite En. reflexivity. Qed.

Lemma dirty_cleared (f : field) (t : MyTicComponent) : dirty f (cleared t) = false.
Proof. destruct f; reflexivity. Qed.

Lemma currentValue_cleared (f : field) (t : MyTicComponent) :
  currentValue f (cleared t) = currentValue f t.
Proof. destruct f; reflexivity. Qed.

Lemma enable_cleared (t : MyTicComponent) : enable (cleared t) = enable t.
Proof. reflexivity. Qed.

Lemma report_cleared (t : MyTicComponent) (f : field) : report (cleared t) f = [].
Proof. unfold report. rewrite dirty_cleared. reflexivity. Qed.

Lemma flat_map_nil {A B : Type} (g : A -> list B) (l : list A) :
  (forall x, g x = []) -> flat_map g l = [].
Proof. intros H. induction l; simpl; [reflexivity | rewrite H, IHl; reflexivity]. Qed.

Lemma update_state (t : MyTicComponent) :
  fst (update t) = if enable t then cleared t else t.
Proof.
  destruct (enable t) eqn:En.
  - rewrite update_enabled by exact En. reflexivity.
  - rewrite update_disabled by exact En. reflexivity.
Qed.

Lemma update_twice (t : MyTicComponent) : snd (update (fst (update t))) = [].
Proof.
  rewrite update_state.
  destruct (enable t) eqn:En.
  - rewrite update_enabled by (rewrite enable_cleared; exact En).
    apply flat_map_nil. intros f. apply report_cleared.
  - rewrite update_disabled by exact En. reflexivity.
Qed.

Lemma update_keeps_values (f : field) (t : MyTicComponent) :
  currentValue f (fst (update t)) = currentValue f t.
Proof.
  rewrite update_state. destruct (enable t); [apply currentValue_cleared | reflexivity].
Qed.

Lemma update_order_complete (f : field) : In f update_order.
Proof. destruct f; simpl; tauto. Qed.

Lemma publication_reported (t : MyTicComponent) (f : field) :
  enable t = true -> dirty f t = true ->
  In (publication f t) (snd (update t)).
Proof.
  intros En D. rewrite update_enabled by exact En.
  change (In (publication f t) (flat_map (report t) update_order)).
  apply in_flat_map. exists f. split; [apply update_order_complete|].
  unfold report. rewrite D. simpl. tauto.
Qed.

(** * The store: [processCommand] *)

Section Store.

Variable toFloat : string -> float.

(** On a label of the schema, [processCommand] compares the incoming
    value with the stored one and stores it when they differ. *)
Lemma processCommand_known (f : field) (value : string) (t : MyTicComponent) :
  processCommand toFloat (label_of f) value t =
  (if differs (currentValue f t) (incoming toFloat f value)
   then store_value f (incoming toFloat f value) t
   else t,
   command_log (label_of f) value).
Proof.
  unfold processCommand, ESP_LOGD.
  rewrite !emit_then.
  destruct f; simpl; unfold when, andThen, assign, skip;
    match goal with
    | |- context [if ?c then _ else _] => destruct c
    end; reflexivity.
Qed.

(** On any other label it only logs that the data is ignored. *)
Lemma processCommand_unknown (label value : string) (t : MyTicComponent) :
  (forall f, label <> label_of f) ->
  processCommand toFloat label value t =
  (t, command_log label value
        ++ [esp_log LOGI "tic" "data ignored: %s %s" [arg_s label; arg_s value]]).
Proof.
  intros H. unfold processCommand, ESP_LOGD.
  rewrite !emit_then.
  repeat match goal with
         | |- context [(label =? ?s)%string] =>
             destruct (String.eqb_spec label s) as [E|_];
             [exfalso; revert E;
              first [ apply (H ADCO) | apply (H OPTARIF) | apply (H IINST)
                    | apply (H ISOUSC) | apply (H PAPP) | apply (H BASE)
                    | apply (H HCHC) | apply (H HCHP) | apply (H EJPHN)
                    | apply (H EJPHPM) | apply (H PTEC) | apply (H IMAX)
                    | apply (H HHPHC) ] | ]
         end.
  reflexivity.
Qed.

End Store.

Lemma label_known_or_not (label : string) :
  (exists f, label = label_of f) \/ (forall f, label <> label_of f).
Proof.
  destruct (in_dec string_dec label (map label_of schema)) as [I|N].
  - left. apply in_map_iff in I. destruct I as [f [E _]]. exists f. auto.
  - right. intros f E. apply N. rewrite E. apply in_map.
    destruct f; simpl; tauto.
Qed.

Lemma stored_value (f : field) (v : string) (toFloat : string -> float)
    (t : MyTicComponent) :
  currentValue f (store_value f (incoming toFloat f v) t) = incoming toFloat f v.
Proof. destruct f; reflexivity. Qed.

Lemma stored_dirty (f : field) (v : string) (toFloat : string -> float)
    (t : MyTicComponent) :
  dirty f (store_value f (incoming toFloat f v) t) = true.
Proof. destruct f; reflexivity. Qed.

Lemma store_value_frame (f g : field) (v : stored) (t : MyTicComponent) :
  g <> f ->
  currentValue g (store_value f v t) = currentValue g t
  /\ dirty g (store_value f v t) = dirty g t.
Proof.
  intros N. destruct f, v, g; try (exfalso; apply N; reflexivity); split; reflexivity.
Qed.

Lemma store_value_enable (f : field) (v : stored) (t : MyTicComponent) :
  enable (store_value f v t) = enable t.
Proof. destruct f, v; reflexivity. Qed.

(** * The framer: [loop] *)

Lemma append_assoc (a b c : string) :
  ((a ++ b) ++ c)%string = (a ++ (b ++ c))%string.
Proof. induction a; simpl; congruence. Qed.

Lemma append_empty_r (a : string) : (a ++ "")%string = a.
Proof. induction a; simpl; congruence. Qed.

Lemma chars_text_of (l : list ascii) : chars (text_of l) = l.
Proof. apply list_ascii_of_string_of_list_ascii. Qed.

Lemma length_text_of (l : list ascii) : String.length (text_of l) = List.length l.
Proof. rewrite <- length_chars, chars_text_of. reflexivity. Qed.

Lemma length_concat (buff : string) (c : ascii) :
  WString.length (WString.concat buff c) = (WString.length buff + 1)%Z.
Proof.
  unfold WString.length, WString.concat. rewrite length_append. simpl. lia.
Qed.

(** A CR ends the reading: the bytes after it stay in the queue. *)
Lemma read_available_record (r more : list ascii) (buff : string) :
  ~ In CR r -> ~ In LF r ->
  String.length buff + List.length r <= 50 ->
  read_available (r ++ CR :: more) buff = ((buff ++ text_of r)%string, [], more).
Proof.
  revert buff. induction r as [|c r IH]; intros buff Hcr Hlf Hlen; simpl.
  - rewrite append_empty_r. reflexivity.
  - simpl in Hlen.
    destruct (Ascii.eqb_spec c CR) as [->|_]; [exfalso; apply Hcr; left; reflexivity|].
    destruct (Ascii.eqb_spec c LF) as [->|_]; [exfalso; apply Hlf; left; reflexivity|].
    rewrite length_concat. unfold WString.length.
    destruct (Z.ltb_spec 50 (Z.of_nat (String.length buff) + 1)) as [H|_]; [lia|].
    simpl orb. cbv iota.
    rewrite IH.
    + unfold WString.concat. rewrite append_assoc. reflexivity.
    + intros H; apply Hcr; right; exact H.
    + intros H; apply Hlf; right; exact H.
    + unfold WString.concat. rewrite length_append. simpl. lia.
Qed.

Lemma text_of_snoc (l : list ascii) (c : ascii) :
  text_of (l ++ [c]) = WString.concat (text_of l) c.
Proof.
  unfold text_of, WString.concat.
  induction l as [|a l IH]; simpl; [reflexivity | rewrite IH; reflexivity].
Qed.

Lemma length_tail51 (seg : list ascii) :
  List.length (tail51 seg) = List.length seg mod 51.
Proof.
  unfold tail51. rewrite length_skipn.
  pose proof (Nat.Div0.mod_le (List.length seg) 51). lia.
Qed.

Lemma tail51_snoc_fits (seg : list ascii) (c : ascii) :
  List.length seg mod 51 < 50 ->
  tail51 (seg ++ [c]) = tail51 seg ++ [c].
Proof.
  intros H. unfold tail51. rewrite length_app. simpl List.length.
  assert (E : (List.length seg + 1) mod 51 = List.length seg mod 51 + 1).
  { symmetry. apply (Nat.mod_unique _ 51 (List.length seg / 51)); [lia|].
    pose proof (Nat.div_mod_eq (List.length seg) 51). lia. }
  rewrite E.
  pose proof (Nat.Div0.mod_le (List.length seg) 51).
  replace (List.length seg + 1 - (List.length seg mod 51 + 1))
    with (List.length seg - List.length seg mod 51) by lia.
  rewrite skipn_app.
  replace (List.length seg - List.length seg mod 51 - List.length seg) with 0 by lia.
  reflexivity.
Qed.

Lemma tail51_snoc_full (seg : list ascii) (c : ascii) :
  List.length seg mod 51 = 50 -> tail51 (seg ++ [c]) = [].
Proof.
  intros H. unfold tail51. rewrite length_app. simpl List.length.
  assert (E : (List.length seg + 1) mod 51 = 0).
  { symmetry. apply (Nat.mod_unique _ 51 (S (List.length seg / 51))); [lia|].
    pose proof (Nat.div_mod_eq (List.length seg) 51). lia. }
  rewrite E, Nat.sub_0_r.
  apply skipn_all2. rewrite length_app. simpl. lia.
Qed.

(** The buffer [loop] is left with, in closed form. *)
Lemma read_available_pending (rx seg : list ascii) :
  ~ In CR rx ->
  exists warnings,
    read_available rx (text_of (tail51 seg))
    = (text_of (tail51 (segment seg rx)), warnings, [])
    /\ Forall (fun e => e = buffer_warning) warnings.
Proof.
  revert seg. induction rx as [|c rx IH]; intros seg Hcr.
  - exists []. split; [reflexivity | constructor].
  - assert (Hcr' : ~ In CR rx) by (intros H; apply Hcr; right; exact H).
    simpl read_available.
    destruct (Ascii.eqb_spec c CR) as [->|_]; [exfalso; apply Hcr; left; reflexivity|].
    rewrite length_concat. unfold WString.length.
    rewrite length_text_of, length_tail51.
    pose proof (Nat.mod_upper_bound (List.length seg) 51) as Hr.
    unfold segment. simpl fold_left. fold (segment (if Ascii.eqb c LF then [] else seg ++ [c]) rx).
    destruct (Ascii.eqb_spec c LF) as [->|Hlf].
    + destruct (IH [] Hcr') as (w & E & Hw).
      change (text_of (tail51 [])) with "" in E. simpl orb. cbv iota.
      rewrite E. eexists. split; [reflexivity|].
      apply Forall_app. split; [|exact Hw].
      destruct (50 <? _)%Z; repeat constructor.
    + destruct (Z.ltb_spec 50 (Z.of_nat (List.length seg mod 51) + 1)) as [Hbig|Hfit];
        simpl orb; cbv iota.
      * destruct (IH (seg ++ [c]) Hcr') as (w & E & Hw).
        rewrite tail51_snoc_full in E at 1 by lia.
        change (text_of []) with "" in E.
        rewrite E. eexists. split; [reflexivity|].
        constructor; [reflexivity | exact Hw].
      * destruct (IH (seg ++ [c]) Hcr') as (w & E & Hw).
        rewrite tail51_snoc_fits in E at 1 by lia.
        rewrite text_of_snoc in E.
        exists w. split; [exact E | exact Hw].
Qed.

Lemma read_available_from_empty (rx : list ascii) :
  ~ In CR rx ->
  exists warnings,
    read_available rx "" = (pending_of rx, warnings, [])
    /\ Forall (fun e => e = buffer_warning) warnings.
Proof. intros H. exact (read_available_pending rx [] H). Qed.

Lemma segment_no_LF (seg rx : list ascii) :
  ~ In LF rx -> segment seg rx = seg ++ rx.
Proof.
  revert seg. induction rx as [|c rx IH]; intros seg H; unfold segment; simpl.
  - rewrite app_nil_r. reflexivity.
  - destruct (Ascii.eqb_spec c LF) as [->|_]; [exfalso; apply H; left; reflexivity|].
    fold (segment (seg ++ [c]) rx). rewrite IH by (intros I; apply H; right; exact I).
    rewrite <- app_assoc. reflexivity.
Qed.

Lemma pending_of_short (rx : list ascii) :
  ~ In LF rx -> List.length rx <= 50 -> pending_of rx = text_of rx.
Proof.
  intros Hlf Hlen. unfold pending_of, tail51.
  rewrite segment_no_LF by exact Hlf. simpl app.
  rewrite Nat.mod_small by lia. rewrite Nat.sub_diag. reflexivity.
Qed.

Lemma length_pending_of (rx : list ascii) : String.length (pending_of rx) <= 50.
Proof.
  unfold pending_of. rewrite length_text_of, length_tail51.
  pose proof (Nat.mod_upper_bound (List.length (segment [] rx)) 51). lia.
Qed.

Lemma segment_members (rx seg : list ascii) (c : ascii) :
  In c (segment seg rx) -> In c seg \/ (In c rx /\ c <> LF).
Proof.
  revert seg. induction rx as [|c0 rx IH]; intros seg H.
  - left. exact H.
  - unfold segment in H. simpl in H.
    fold (segment (if Ascii.eqb c0 LF then [] else seg ++ [c0]) rx) in H.
    apply IH in H. destruct (Ascii.eqb_spec c0 LF) as [->|N].
    + destruct H as [[]|[I Hc]]. right. split; [right; exact I | exact Hc].
    + destruct H as [I|[I Hc]].
      * apply in_app_or in I. destruct I as [I|[<-|[]]].
        -- left. exact I.
        -- right. split; [left; reflexivity | exact N].
      * right. split; [right; exact I | exact Hc].
Qed.

Lemma pending_of_members (rx : list ascii) (c : ascii) :
  In c (chars (pending_of rx)) -> In c rx /\ c <> LF.
Proof.
  unfold pending_of. rewrite chars_text_of. unfold tail51. intros H.
  assert (I : In c (segment [] rx)).
  { rewrite <- (firstn_skipn (List.length (segment [] rx)
                              - List.length (segment [] rx) mod 51)).
    apply in_or_app. right. exact H. }
  apply segment_members in I. destruct I as [[]|I]. exact I.
Qed.

(** The buffer left of a stream without the null character has none. *)
Lemma pending_of_clean (rx : list ascii) :
  ~ In NUL rx -> count_char NUL (pending_of rx) = 0.
Proof.
  intros H. apply count_char_absent. intros I.
  apply pending_of_members in I. apply H, I.
Qed.

Lemma text_of_clean (l : list ascii) :
  ~ In NUL l -> count_char NUL (text_of l) = 0.
Proof.
  intros H. apply count_char_absent. rewrite chars_text_of. exact H.
Qed.

(** * Effects of the calls on the tracked fields *)

Section Effects.

Variable toFloat : string -> float.

Lemma processCommand_events (label value : string) (t : MyTicComponent) :
  exists tail, snd (processCommand toFloat label value t)
               = command_log label value ++ tail
               /\ (tail = [] \/ tail = [esp_log LOGI "tic" "data ignored: %s %s"
                                         [arg_s label; arg_s value]]).
Proof.
  destruct (label_known_or_not label) as [[f ->]|N].
  - exists []. rewrite processCommand_known, app_nil_r. auto.
  - exists [esp_log LOGI "tic" "data ignored: %s %s" [arg_s label; arg_s value]].
    rewrite processCommand_unknown by exact N. auto.
Qed.

Lemma processCommand_forwarded (label value : string) (t : MyTicComponent) :
  forwarded (snd (processCommand toFloat label value t)) = true.
Proof.
  destruct (processCommand_events label value t) as (tail & -> & _).
  reflexivity.
Qed.

Lemma processCommand_emitted (label value : string) (t : MyTicComponent) :
  emitted (snd (processCommand toFloat label value t)) = [].
Proof.
  destruct (processCommand_events label value t) as (tail & -> & [-> | ->]);
    reflexivity.
Qed.

Lemma processCommand_enable (label value : string) (t : MyTicComponent) :
  enable (fst (processCommand toFloat label value t)) = enable t.
Proof.
  destruct (label_known_or_not label) as [[f ->]|N].
  - rewrite processCommand_known. simpl.
    destruct (differs _ _); [apply store_value_enable | reflexivity].
  - rewrite processCommand_unknown by exact N. reflexivity.
Qed.

(** [processString] either leaves the component as it is or does what
    one call of [processCommand] does. *)
Lemma processString_state (str : string) (t : MyTicComponent) :
  fst (processString toFloat str t) = t
  \/ exists label value,
       fst (processString toFloat str t)
       = fst (processCommand toFloat label value t).
Proof.
  unfold processString, ESP_LOGD, ESP_LOGW. rewrite emit_then. simpl fst.
  repeat match goal with
         | |- context [if ?c then _ else _] => destruct c
         end; try (left; reflexivity).
  right. eexists; eexists; reflexivity.
Qed.

(** Whatever the record, the label [processString] forwards is the one
    before its first separator. *)
Lemma processString_label (str : string) (t : MyTicComponent) :
  fst (processString toFloat str t) = t
  \/ exists value,
       fst (processString toFloat str t)
       = fst (processCommand toFloat (label_of_record str) value t).
Proof.
  unfold label_of_record, separator, processString, ESP_LOGD, ESP_LOGW.
  rewrite emit_then. simpl fst.
  destruct (-1 <? WString.indexOf str " "%char)%Z eqn:G1;
    [|left; reflexivity].
  rewrite substring_before by exact G1.
  repeat match goal with
         | |- context [if ?c then _ else _] => destruct c
         end; try (left; reflexivity).
  right. eexists; reflexivity.
Qed.

Lemma processString_emitted (str : string) (t : MyTicComponent) :
  emitted (snd (processString toFloat str t)) = [str].
Proof.
  unfold processString, ESP_LOGD, ESP_LOGW. rewrite emit_then.
  cbn [snd emitted String.eqb Ascii.eqb Bool.eqb]. f_equal.
  repeat match goal with
         | |- context [if ?c then _ else _] => destruct c
         end; try reflexivity.
  apply processCommand_emitted.
Qed.

Lemma processString_enable (str : string) (t : MyTicComponent) :
  enable (fst (processString toFloat str t)) = enable t.
Proof.
  destruct (processString_state str t) as [-> | (l & v & ->)];
    [reflexivity | apply processCommand_enable].
Qed.

Lemma loop_disabled (rx : list ascii) (t : MyTicComponent) :
  enable t = false -> loop toFloat rx t = (t, [], rx).
Proof. intros En. unfold loop. rewrite En. reflexivity. Qed.

Lemma loop_enabled (rx : list ascii) (t : MyTicComponent)
    (buff : string) (warnings : list event) (rest : list ascii) :
  enable t = true ->
  read_available rx "" = (buff, warnings, rest) ->
  loop toFloat rx t =
  if WString.differs_from_empty buff
  then (fst (processString toFloat buff t),
        warnings ++ snd (processString toFloat buff t), rest)
  else (t, warnings, rest).
Proof.
  intros En E. unfold loop. rewrite En, E.
  destruct (WString.differs_from_empty buff); simpl.
  - destruct (processString toFloat buff t). reflexivity.
  - rewrite app_nil_r. reflexivity.
Qed.

(** On a buffer without the null character the test of [loop] is
    whether the buffer is empty. *)
Lemma loop_enabled_clean (rx : list ascii) (t : MyTicComponent)
    (buff : string) (warnings : list event) (rest : list ascii) :
  enable t = true ->
  read_available rx "" = (buff, warnings, rest) ->
  count_char NUL buff = 0 ->
  loop toFloat rx t =
  if (buff =? "")%string then (t, warnings, rest)
  else (fst (processString toFloat buff t),
        warnings ++ snd (processString toFloat buff t), rest).
Proof.
  intros En E H0. rewrite (loop_enabled _ _ _ _ _ En E).
  rewrite differs_from_empty_clean by exact H0.
  destruct (buff =? "")%string; reflexivity.
Qed.

Lemma loop_state (rx : list ascii) (t : MyTicComponent) :
  fst (fst (loop toFloat rx t)) = t
  \/ exists label value,
       fst (fst (loop toFloat rx t))
       = fst (processCommand toFloat label value t).
Proof.
  destruct (enable t) eqn:En.
  - destruct (read_available rx "") as [[buff w] rest] eqn:E.
    rewrite (loop_enabled _ _ _ _ _ En E).
    destruct (WString.differs_from_empty buff); [|left; reflexivity].
    apply processString_state.
  - rewrite loop_disabled by exact En. left; reflexivity.
Qed.

Lemma loop_enable (rx : list ascii) (t : MyTicComponent) :
  enable (fst (fst (loop toFloat rx t))) = enable t.
Proof.
  destruct (loop_state rx t) as [-> | (l & v & ->)];
    [reflexivity | apply processCommand_enable].
Qed.

End Effects.

(** * Floating point *)

Lemma float_same_eq (x y : float) : float_same x y = true <-> x = y.
Proof.
  destruct x as [a|a| |a m e], y as [b|b| |b n g]; simpl;
    try (split; [discriminate | congruence]).
  - rewrite Bool.eqb_true_iff. split; congruence.
  - rewrite Bool.eqb_true_iff. split; congruence.
  - tauto.
  - rewrite !andb_true_iff, Bool.eqb_true_iff, Pos.eqb_eq, Z.eqb_eq.
    split; [intros [[-> ->] ->]; reflexivity | intros E; inversion E; auto].
Qed.

Lemma SFeqb_same (x : float) : x <> S754_nan -> SFeqb x x = true.
Proof.
  unfold SFeqb. destruct x as [a|a| |a m e]; simpl; intros H.
  - reflexivity.
  - destruct a; reflexivity.
  - congruence.
  - destruct a; rewrite Z.compare_refl, Pos.compare_cont_refl; reflexivity.
Qed.

Lemma stored_same_refl (a : stored) : stored_same a a = true.
Proof.
  destruct a; simpl; [apply String.eqb_refl | apply float_same_eq; reflexivity].
Qed.

(** When the comparison of the code finds a difference, the incoming
    value is another value than the stored one, NaN apart. *)
Lemma differs_not_same (toFloat : string -> float) (f : field) (value : string)
    (t : MyTicComponent) :
  toFloat value <> S754_nan ->
  differs (currentValue f t) (incoming toFloat f value) = true ->
  stored_same (currentValue f t) (incoming toFloat f value) = false.
Proof.
  intros Hn.
  assert (F : forall x, float_ne x (toFloat value) = true ->
                        float_same x (toFloat value) = false).
  { intros x H. destruct (float_same x (toFloat value)) eqn:E; [|reflexivity].
    apply float_same_eq in E. subst x.
    unfold float_ne in H. rewrite SFeqb_same in H by exact Hn. discriminate. }
  destruct f; simpl; try apply F; intros H; apply negb_true_iff in H; exact H.
Qed.

Lemma iter_shr_1_nonneg (p : positive) (mrs : shr_record) :
  (0 <= shr_m mrs)%Z -> (0 <= shr_m (iter_pos shr_1 p mrs))%Z.
Proof.
  assert (S1 : forall r, (0 <= shr_m r)%Z -> (0 <= shr_m (shr_1 r))%Z).
  { intros [m r s] H. simpl in H. destruct m as [|[q|q|]|q]; simpl; lia. }
  revert mrs. induction p as [p IH|p IH|]; intros mrs H; simpl; auto.
Qed.

Lemma shr_fexp_nonneg (prec emax m e : Z) (l : location) :
  (0 <= m)%Z -> (0 <= shr_m (fst (shr_fexp prec emax m e l)))%Z.
Proof.
  intros H. unfold shr_fexp, shr.
  assert (R : shr_m (shr_record_of_loc m l) = m) by (destruct l as [|[]]; reflexivity).
  destruct (fexp prec emax (Zdigits2 m + e) - e)%Z; simpl; try lia.
  apply iter_shr_1_nonneg. lia.
Qed.

Lemma binary_round_aux_not_nan (prec emax : Z) (s : bool) (m e : Z) (l : location) :
  (0 <= m)%Z -> binary_round_aux prec emax s m e l <> S754_nan.
Proof.
  intros H. unfold binary_round_aux.
  pose proof (shr_fexp_nonneg prec emax m e l H) as H1.
  destruct (shr_fexp prec emax m e l) as [mrs' e']. simpl in H1.
  set (r := round_nearest_even (shr_m mrs') (loc_of_shr_record mrs')).
  assert (Hr : (0 <= r)%Z).
  { unfold r, round_nearest_even.
    destruct (loc_of_shr_record mrs') as [|[]]; try lia.
    destruct (Z.even (shr_m mrs')); lia. }
  pose proof (shr_fexp_nonneg prec emax r e' loc_Exact Hr) as H2.
  destruct (shr_fexp prec emax r e' loc_Exact) as [mrs'' e'']. simpl in H2.
  destruct (shr_m mrs'') as [|q|q]; try lia; try discriminate.
  destruct (e'' <=? emax - prec)%Z; discriminate.
Qed.

Lemma binary_round_not_nan (prec emax : Z) (s : bool) (m : positive) (e : Z) :
  binary_round prec emax s m e <> S754_nan.
Proof.
  unfold binary_round. destruct (shl_align m e _) as [mz ez].
  apply binary_round_aux_not_nan. lia.
Qed.

Lemma float_of_double_not_nan (d : double) :
  d <> S754_nan -> float_of_double d <> S754_nan.
Proof.
  destruct d; simpl; auto. intros _. apply binary_round_not_nan.
Qed.

Lemma double_of_quotient_not_nan (neg : bool) (m : Z) (d : positive) :
  double_of_quotient neg m d <> S754_nan.
Proof.
  unfold double_of_quotient. destruct m as [|p|p]; try discriminate.
  unfold SFdiv, SFdiv_core_binary.
  set (m' := match (_ - _ - _)%Z with Zpos _ => _ | Z0 => _ | Zneg _ => _ end).
  assert (Hm : (0 <= m')%Z).
  { unfold m'. destruct (_ - _ - _)%Z; try lia. apply Z.shiftl_nonneg. lia. }
  pose proof (Z_div_mod m' (Zpos d) eq_refl) as Hd.
  destruct (Z.div_eucl m' (Zpos d)) as [q r].
  apply binary_round_aux_not_nan. nia.
Qed.

(** The modelled conversion never yields a NaN. *)
Lemma String_toFloat_not_nan (s : string) : String_toFloat s <> S754_nan.
Proof.
  unfold String_toFloat. destruct (decimal_prefix s) as [[[neg m] nf]|].
  - apply float_of_double_not_nan, double_of_quotient_not_nan.
  - discriminate.
Qed.

(** It yields zero on a string that does not start with a number. *)
Lemma String_toFloat_failure (s : string) :
  decimal_prefix s = None -> String_toFloat s = float_zero.
Proof. intros H. unfold String_toFloat. rewrite H. reflexivity. Qed.

(** * Runs of the component *)

Lemma field_eq_dec (f g : field) : {f = g} + {f <> g}.
Proof. decide equality. Qed.

Section Tracking.

Variable toFloat : string -> float.
Hypothesis toFloat_not_nan : forall s, toFloat s <> S754_nan.

(** A call of [processCommand] flags a field exactly when it changes
    its value. *)
Lemma processCommand_tracks (label value : string) (t : MyTicComponent)
    (f : field) :
  dirty f (fst (processCommand toFloat label value t))
  = dirty f t
    || negb (stored_same (currentValue f t)
               (currentValue f (fst (processCommand toFloat label value t)))).
Proof.
  destruct (label_known_or_not label) as [[f0 ->]|N].
  - rewrite processCommand_known. simpl fst.
    destruct (differs (currentValue f0 t) (incoming toFloat f0 value)) eqn:D.
    + destruct (field_eq_dec f f0) as [->|Nf].
      * rewrite stored_dirty, stored_value.
        rewrite (differs_not_same _ _ _ _ (toFloat_not_nan value) D).
        rewrite orb_true_r. reflexivity.
      * destruct (store_value_frame f0 f (incoming toFloat f0 value) t Nf) as [-> ->].
        rewrite stored_same_refl, orb_false_r. reflexivity.
    + rewrite stored_same_refl, orb_false_r. reflexivity.
  - rewrite processCommand_unknown by exact N. simpl fst.
    rewrite stored_same_refl, orb_false_r. reflexivity.
Qed.

(** One call: a drain clears the flag, any other call raises it exactly
    when it changes the value. *)
Lemma exec_tracks (c : call) (t : MyTicComponent) (f : field) :
  dirty f (exec toFloat c t)
  = if enabled_update c t then false
    else dirty f t
         || negb (stored_same (currentValue f t)
                    (currentValue f (exec toFloat c t))).
Proof.
  destruct c as [|state|rx|label value|]; simpl.
  - rewrite stored_same_refl, orb_false_r. reflexivity.
  - replace (currentValue f (set_enable state t)) with (currentValue f t)
      by (destruct f; reflexivity).
    rewrite stored_same_refl, orb_false_r. destruct f; reflexivity.
  - destruct (loop_state toFloat rx t) as [-> | (l & v & ->)].
    + rewrite stored_same_refl, orb_false_r. reflexivity.
    + apply processCommand_tracks.
  - apply processCommand_tracks.
  - rewrite update_state. destruct (enable t).
    + apply dirty_cleared.
    + rewrite stored_same_refl, orb_false_r. reflexivity.
Qed.

Lemma run_tracks (f : field) (cs : list call) (t : MyTicComponent) :
  dirty f (run toFloat cs t)
  = changed_since_drain toFloat enabled_update f cs t (dirty f t).
Proof.
  revert t. induction cs as [|c cs IH]; intros t; simpl.
  - reflexivity.
  - unfold run in *. simpl. rewrite IH. f_equal. apply exec_tracks.
Qed.

End Tracking.

(** * The drain *)

Lemma drained_app (a b : list event) : drained (a ++ b) = drained a ++ drained b.
Proof.
  induction a as [|e a IH]; simpl; [reflexivity|].
  destruct e; simpl; rewrite IH; reflexivity.
Qed.

Lemma drained_report (t : MyTicComponent) (f : field) :
  drained (report t f) = if dirty f t then [(label_of f, published f t)] else [].
Proof. unfold report. destruct (dirty f t); [destruct f|]; reflexivity. Qed.

Lemma drained_flat_map (t : MyTicComponent) (l : list field) :
  drained (flat_map (report t) l)
  = flat_map (fun f => if dirty f t then [(label_of f, published f t)] else []) l.
Proof.
  induction l as [|f l IH]; simpl; [reflexivity|].
  rewrite drained_app, drained_report, IH. reflexivity.
Qed.

(** The drain of an enabled component: the flagged fields with their
    published values, in the order of [update]. *)
Lemma drain_enabled (t : MyTicComponent) :
  enable t = true ->
  drain t = flat_map (fun f => if dirty f t then [(label_of f, published f t)] else [])
              update_order.
Proof.
  intros En. unfold drain. rewrite update_enabled by exact En.
  apply drained_flat_map.
Qed.

Lemma drain_disabled (t : MyTicComponent) : enable t = false -> drain t = [].
Proof. intros En. unfold drain. rewrite update_disabled by exact En. reflexivity. Qed.

Lemma drain_contains (t : MyTicComponent) (f : field) :
  enable t = true -> dirty f t = true ->
  In (label_of f, published f t) (drain t).
Proof.
  intros En D. rewrite drain_enabled by exact En.
  apply in_flat_map. exists f. split; [apply update_order_complete|].
  rewrite D. left. reflexivity.
Qed.

Lemma drain_labels (t : MyTicComponent) (label : string) (v : stored) :
  In (label, v) (drain t) -> exists f, label = label_of f.
Proof.
  destruct (enable t) eqn:En.
  - rewrite drain_enabled by exact En. intros H.
    apply in_flat_map in H. destruct H as (f & _ & H).
    destruct (dirty f t); [|contradiction].
    destruct H as [H|[]]. exists f. congruence.
  - rewrite drain_disabled by exact En. contradiction.
Qed.

Lemma drain_after_update (t : MyTicComponent) : drain (fst (update t)) = [].
Proof. unfold drain. rewrite update_twice. reflexivity. Qed.

Lemma emitted_app (a b : list event) : emitted (a ++ b) = emitted a ++ emitted b.
Proof.
  induction a as [|e a IH]; simpl; [reflexivity|].
  destruct e as [lvl tag fmt args| | |]; simpl; try exact IH.
  destruct lvl; try exact IH.
  destruct args as [|[s|x|c] [|a' args]]; try exact IH.
  destruct (fmt =? "tic_received %s")%string; simpl; rewrite IH; reflexivity.
Qed.

Lemma emitted_warnings (w : list event) :
  Forall (fun e => e = buffer_warning) w -> emitted w = [].
Proof. induction 1 as [|e w -> _ IH]; simpl; [reflexivity | exact IH]. Qed.

Lemma text_of_not_empty (l : list ascii) : l <> [] -> (text_of l =? "")%string = false.
Proof. destruct l; [congruence | reflexivity]. Qed.

Lemma SFeqb_finite (x : float) (s : bool) (m : positive) (e : Z) :
  SFeqb x (S754_finite s m e) = true -> x = S754_finite s m e.
Proof.
  unfold SFeqb. destruct x as [a|a| |a n g]; simpl; try discriminate.
  - destruct s; discriminate.
  - destruct a; discriminate.
  - change (Pos.compare_cont Eq n m) with (Pos.compare n m).
    destruct a, s; try discriminate;
      destruct (Z.compare_spec g e) as [->| |]; try discriminate;
      destruct (Pos.compare_spec n m) as [->| |]; simpl; try discriminate;
      reflexivity.
Qed.

(** * The claims of the specification *)

(** ** The record parser *)





(** ** The framer *)

(** C2, as stated, fails: bytes without any CR reach the parser when the
    available bytes run out (here a whole ADCO record, which is then
    stored), and a record delivered over two calls of [loop] is framed as
    two candidates, none of which is stored, unlike the same bytes
    delivered to one call. *)
Lemma CR_free_bytes_reach_the_parser :
  ~ In CR (chars "ADCO 031122334455 8")
  /\ emitted (snd (fst (loop String_toFloat (chars "ADCO 031122334455 8")
                          (switched_on initial))))
     = ["ADCO 031122334455 8"]
  /\ adco (fst (fst (loop String_toFloat (chars "ADCO 031122334455 8")
                       (switched_on initial))))
     = "031122334455"
  /\ adco (fst (fst (loop String_toFloat (wire "22334455 8")
                       (fst (fst (loop String_toFloat (chars "ADCO 0311")
                                    (switched_on initial)))))))
     = ""
  /\ adco (fst (fst (loop String_toFloat (chars "ADCO 0311" ++ wire "22334455 8")
                       (switched_on initial))))
     = "031122334455".
Proof.
  split.
  - not_listed.
  - repeat split; vm_compute; reflexivity.
Qed.

(** C2, amended.  A CR-free sequence of bytes (none of them the null
    character) available to one call of [loop], with the switch on, is
    read to its end; when the bytes run
    out, the call hands the parser the buffer it is left with,
    [pending_of rx]: the last [n mod 51] of the [n] bytes that follow the
    last LF, hence the whole sequence when it is not empty, has no LF and
    at most 50 bytes.  A record is emitted unless that buffer is empty.
    The buffer is local to the call: a later call frames the bytes it
    receives on their own. *)
Theorem loop_frames_available_bytes (toFloat : string -> float)
    (rx : list ascii) (t : MyTicComponent) :
  enable t = true ->
  ~ In CR rx ->
  ~ In NUL rx ->
  exists warnings : list event,
    Forall (fun e => e = buffer_warning) warnings
    /\ loop toFloat rx t
       = (if (pending_of rx =? "")%string then (t, warnings, [])
          else (fst (processString toFloat (pending_of rx) t),
                warnings ++ snd (processString toFloat (pending_of rx) t), []))
    /\ emitted (snd (fst (loop toFloat rx t)))
       = (if (pending_of rx =? "")%string then [] else [pending_of rx])
    /\ String.length (pending_of rx) <= 50
    /\ (rx <> [] -> ~ In LF rx -> List.length rx <= 50 ->
        emitted (snd (fst (loop toFloat rx t))) = [text_of rx])
    /\ (forall later : list ascii,
          later <> [] -> ~ In CR later -> ~ In LF later ->
          ~ In NUL later -> List.length later <= 50 ->
          emitted (snd (fst (loop toFloat (later ++ [CR])
                               (fst (fst (loop toFloat rx t))))))
          = [text_of later]).
Proof.
  intros En Hcr Hnul.
  destruct (read_available_from_empty rx Hcr) as (w & E & Hw).
  exists w.
  pose proof (loop_enabled_clean toFloat rx t (pending_of rx) w [] En E
                (pending_of_clean rx Hnul)) as L.
  assert (Em : emitted (snd (fst (loop toFloat rx t)))
               = (if (pending_of rx =? "")%string then [] else [pending_of rx])).
  { rewrite L. destruct (pending_of rx =? "")%string; simpl.
    - apply emitted_warnings; exact Hw.
    - rewrite emitted_app, emitted_warnings, processString_emitted by exact Hw.
      reflexivity. }
  split; [exact Hw|].
  split; [exact L|].
  split; [exact Em|].
  split; [apply length_pending_of|].
  split.
  { intros Hne Hlf Hlen. rewrite Em, pending_of_short by assumption.
    rewrite text_of_not_empty by exact Hne. reflexivity. }
  intros later Hne Hcr' Hlf Hnul' Hlen.
  erewrite loop_enabled_clean.
  3:{ apply read_available_record; [assumption | assumption | simpl; lia]. }
  2:{ rewrite loop_enable. exact En. }
  2:{ simpl append. apply text_of_clean. exact Hnul'. }
  simpl append. rewrite text_of_not_empty by exact Hne.
  simpl. apply processString_emitted.
Qed.

Lemma loop_frames_available_bytes_witness :
  enable (switched_on initial) = true
  /\ ~ In CR (chars "ADCO 0311")
  /\ ~ In NUL (chars "ADCO 0311")
  /\ emitted (snd (fst (loop String_toFloat (wire "22334455 8")
                          (fst (fst (loop String_toFloat (chars "ADCO 0311")
                                       (switched_on initial)))))))
     = ["22334455 8"].
Proof.
  assert (En : enable (switched_on initial) = true) by reflexivity.
  assert (Hcr : ~ In CR (chars "ADCO 0311")) by not_listed.
  assert (Hnul : ~ In NUL (chars "ADCO 0311")) by not_listed.
  split; [exact En | split; [exact Hcr | split; [exact Hnul|]]].
  destruct (loop_frames_available_bytes String_toFloat (chars "ADCO 0311")
              (switched_on initial) En Hcr Hnul)
    as (w & _ & _ & _ & _ & _ & Later).
  apply (Later (chars "22334455 8")).
  - discriminate.
  - not_listed.
  - not_listed.
  - not_listed.
  - simpl. lia.
Defined.

(** ** The store *)

(** C4, as stated, fails: [update] is the drain, and called with the
    switch off it clears nothing.  After the calls below the ADCO flag is
    still up although the value has not changed since the last
    [update]. *)
Lemma dirty_after_disabled_update :
  dirty ADCO
    (run String_toFloat
       [call_write_state true; call_loop (wire "ADCO 031122334455 8");
        call_write_state false; call_update] initial)
  = true
  /\ changed_since_drain String_toFloat any_update ADCO
       [call_write_state true; call_loop (wire "ADCO 031122334455 8");
        call_write_state false; call_update] initial false
     = false.
Proof. split; vm_compute; reflexivity. Qed.

(** C4, amended.  Along every sequence of calls made from the initial
    component, the flag of a field is up if and only if the value of the
    field changed since the last [update] made with the switch on (since
    the start when there is none); the number conversion is any one that
    yields no NaN.  An [update] that follows an [update] publishes
    nothing, and [update] never changes a value. *)
Theorem dirty_iff_changed_since_drain (toFloat : string -> float) :
  (forall s, toFloat s <> S754_nan) ->
  (forall (cs : list call) (f : field),
      dirty f (run toFloat cs initial) = true
      <-> changed_since_drain toFloat enabled_update f cs initial false = true)
  /\ (forall t, snd (update (fst (update t))) = []
                /\ drain (fst (update t)) = [])
  /\ (forall t f, currentValue f (fst (update t)) = currentValue f t).
Proof.
  intros Hnan. split; [|split].
  - intros cs f. rewrite (run_tracks toFloat Hnan f cs initial).
    replace (dirty f initial) with false by (destruct f; reflexivity).
    tauto.
  - intros t. split; [apply update_twice | apply drain_after_update].
  - intros t f. apply update_keeps_values.
Qed.

Lemma dirty_iff_changed_since_drain_witness :
  (forall s, String_toFloat s <> S754_nan)
  /\ (dirty BASE
        (run String_toFloat
           [call_write_state true; call_loop (wire "BASE 012345678 /");
            call_update; call_loop (wire "BASE 012345678 /")] initial)
      = true
      <-> changed_since_drain String_toFloat enabled_update BASE
            [call_write_state true; call_loop (wire "BASE 012345678 /");
             call_update; call_loop (wire "BASE 012345678 /")] initial false
          = true).
Proof.
  split; [exact String_toFloat_not_nan|].
  exact (proj1 (dirty_iff_changed_since_drain String_toFloat
                  String_toFloat_not_nan) _ BASE).
Defined.

(** C5, as stated, fails: the value stored for BASE is the number read,
    12345678, not 12345.678. *)
Lemma base_is_stored_unscaled :
  checksum_rule "BASE 012345678 /" = code "/"
  /\ base (fst (fst (loop String_toFloat (wire "BASE 012345678 /")
                       (switched_on initial))))
     = float_12345678
  /\ String_toFloat "12345.678" = float_12345_678
  /\ float_12345678 <> float_12345_678.
Proof. repeat split; try (vm_compute; reflexivity). discriminate. Qed.

(** C5, amended.  For every numeric label, [processCommand] compares and
    stores the number read, with no divisor applied; the divisor 1000 of
    BASE, HCHC, HCHP, EJPHN and EJPHPM is applied by [update] to the value
    it publishes (IMAX, ISOUSC, IINST and PAPP are published as stored).
    Feeding the BASE record with its checksum to an enabled component
    stores 12345678, and the [update] that follows publishes
    12345678 / 1000 rounded to binary32, when the stored value was another
    one. *)
Theorem base_scaled_on_publication (toFloat : string -> float) (f : field)
    (value : string) (x : float) (t : MyTicComponent) :
  enable t = true ->
  is_numeric f = true ->
  currentValue f t = number x ->
  processCommand toFloat (label_of f) value t
  = (if float_ne x (toFloat value)
     then store_value f (number (toFloat value)) t
     else t,
     command_log (label_of f) value)
  /\ (float_ne x (toFloat value) = true ->
      currentValue f (fst (processCommand toFloat (label_of f) value t))
      = number (toFloat value)
      /\ dirty f (fst (processCommand toFloat (label_of f) value t)) = true
      /\ In (label_of f,
             number (if has_divisor f
                     then float_of_double (div_1000 (toFloat value))
                     else toFloat value))
            (drain (fst (processCommand toFloat (label_of f) value t))))
  /\ (float_ne x (toFloat value) = false ->
      fst (processCommand toFloat (label_of f) value t) = t)
  /\ base (fst (fst (loop String_toFloat (wire "BASE 012345678 /") t)))
     = float_12345678
  /\ (base t <> float_12345678 ->
      In (sensor_publish_state sensor_BASE float_12345_678)
         (snd (update (fst (fst (loop String_toFloat (wire "BASE 012345678 /") t)))))
      /\ In ("BASE", number float_12345_678)
            (drain (fst (fst (loop String_toFloat (wire "BASE 012345678 /") t))))).
Proof.
  intros En Hnum Hx.
  assert (I : incoming toFloat f value = number (toFloat value)).
  { unfold incoming. rewrite Hnum. reflexivity. }
  assert (P : processCommand toFloat (label_of f) value t
              = (if float_ne x (toFloat value)
                 then store_value f (number (toFloat value)) t
                 else t,
                 command_log (label_of f) value)).
  { rewrite processCommand_known, I, Hx. reflexivity. }
  split; [exact P|].
  split.
  { intros D. rewrite P, D. cbn [fst]. rewrite <- I.
    rewrite stored_value, stored_dirty.
    split; [reflexivity | split; [reflexivity|]].
    pose proof (drain_contains (store_value f (incoming toFloat f value) t) f)
      as C.
    rewrite store_value_enable, stored_dirty in C.
    specialize (C En eq_refl). rewrite I in *.
    destruct f; try discriminate Hnum; exact C. }
  split.
  { intros D. rewrite P, D. reflexivity. }
  clear f x Hnum Hx I P.
  assert (L : loop String_toFloat (wire "BASE 012345678 /") t
              = (fst (processCommand String_toFloat "BASE" "012345678" t),
                 snd (processString String_toFloat "BASE 012345678 /" t), [])).
  { rewrite (loop_enabled String_toFloat _ t "BASE 012345678 /" [] [] En)
      by reflexivity.
    simpl. f_equal. f_equal.
    rewrite (processString_wellformed String_toFloat "BASE 012345678 /" t)
      by (vm_compute; (lia || discriminate || reflexivity)).
    unfold ESP_LOGD. rewrite emit_then. reflexivity. }
  rewrite L. cbn [fst].
  pose proof (processCommand_known String_toFloat BASE "012345678" t) as K.
  change (incoming String_toFloat BASE "012345678")
    with (number float_12345678) in K.
  cbn [label_of differs currentValue] in K. rewrite K. cbn [fst].
  destruct (float_ne (base t) float_12345678) eqn:D.
  - split; [reflexivity|]. intros _.
    split.
    + apply (publication_reported
               (store_value BASE (number float_12345678) t) BASE);
        [exact En | reflexivity].
    + apply (drain_contains
               (store_value BASE (number float_12345678) t) BASE);
        [exact En | reflexivity].
  - apply negb_false_iff, SFeqb_finite in D.
    split; [exact D | intros N; contradiction].
Qed.

Lemma base_scaled_on_publication_witness :
  enable (switched_on initial) = true
  /\ is_numeric HCHC = true
  /\ currentValue HCHC (switched_on initial) = number float_zero
  /\ currentValue HCHC (fst (processCommand String_toFloat "HCHC" "012345678"
                               (switched_on initial)))
     = number float_12345678
  /\ In ("HCHC", number float_12345_678)
        (drain (fst (processCommand String_toFloat "HCHC" "012345678"
                       (switched_on initial))))
  /\ base (fst (fst (loop String_toFloat (wire "BASE 012345678 /")
                       (switched_on initial))))
     = float_12345678.
Proof.
  assert (En : enable (switched_on initial) = true) by reflexivity.
  assert (Hnum : is_numeric HCHC = true) by reflexivity.
  assert (Hx : currentValue HCHC (switched_on initial) = number float_zero)
    by reflexivity.
  pose proof (base_scaled_on_publication String_toFloat HCHC "012345678"
                float_zero (switched_on initial) En Hnum Hx)
    as (_ & S & _ & B & _).
  split; [exact En | split; [exact Hnum | split; [exact Hx|]]].
  destruct (S eq_refl) as (V & _ & D).
  split; [exact V|].
  split; [exact D | exact B].
Defined.

(** ** End to end *)

(** C6, as stated, fails: the checksum of "ADCO 031122334455 " with its
    trailing separator is the character X, and [processString], which
    leaves the separator out, rejects the record with it: nothing is
    stored and the drain that follows is empty. *)
Lemma adco_record_with_separator_checksum_rejected :
  checksum_over (chars "ADCO 031122334455 ") = code "X"
  /\ checksum_of_record "ADCO 031122334455 X" = code "8"
  /\ fst (fst (loop String_toFloat (wire "ADCO 031122334455 X")
                 (switched_on initial)))
     = switched_on initial
  /\ drain (fst (fst (loop String_toFloat (wire "ADCO 031122334455 X")
                        (switched_on initial))))
     = [].
Proof. repeat split; vm_compute; reflexivity. Qed.

(** C6, amended.  The checksum of the ADCO record is computed over
    "ADCO 031122334455", without the trailing separator, and is the
    character 8.  Feeding "ADCO 031122334455 8" and a CR in one call of
    [loop] to an enabled component that does not already hold this value
    unflagged results in a drain that contains ("ADCO",
    "031122334455"). *)
Theorem adco_record_end_to_end (toFloat : string -> float)
    (t : MyTicComponent) :
  enable t = true ->
  adco t <> "031122334455" \/ adco_updated t = true ->
  checksum_over (chars "ADCO 031122334455") = code "8"
  /\ checksum_rule "ADCO 031122334455 8" = code "8"
  /\ In ("ADCO", text "031122334455")
        (drain (fst (fst (loop toFloat (wire "ADCO 031122334455 8") t)))).
Proof.
  intros En H.
  split; [reflexivity | split; [reflexivity|]].
  assert (L : fst (fst (loop toFloat (wire "ADCO 031122334455 8") t))
              = fst (processCommand toFloat "ADCO" "031122334455" t)).
  { rewrite (loop_enabled toFloat _ t "ADCO 031122334455 8" [] [] En)
      by reflexivity.
    change (WString.differs_from_empty "ADCO 031122334455 8") with true.
    cbn iota. cbn [fst].
    rewrite (processString_wellformed toFloat "ADCO 031122334455 8" t)
      by (vm_compute; (lia || discriminate || reflexivity)).
    unfold ESP_LOGD. rewrite emit_then. reflexivity. }
  rewrite L.
  pose proof (processCommand_known toFloat ADCO "031122334455" t) as K.
  cbn [label_of] in K. rewrite K. cbn [fst].
  change (incoming toFloat ADCO "031122334455") with (text "031122334455").
  destruct (differs (currentValue ADCO t) (text "031122334455")) eqn:D.
  - apply (drain_contains (store_value ADCO (text "031122334455") t) ADCO);
      [exact En | reflexivity].
  - simpl in D. apply negb_false_iff, String.eqb_eq in D.
    destruct H as [H|H]; [contradiction|].
    pose proof (drain_contains t ADCO En H) as I.
    simpl in I. rewrite D in I. exact I.
Qed.

Lemma adco_record_end_to_end_witness :
  enable (switched_on initial) = true
  /\ (adco (switched_on initial) <> "031122334455"
      \/ adco_updated (switched_on initial) = true)
  /\ In ("ADCO", text "031122334455")
        (drain (fst (fst (loop String_toFloat (wire "ADCO 031122334455 8")
                            (switched_on initial))))).
Proof.
  assert (En : enable (switched_on initial) = true) by reflexivity.
  assert (H : adco (switched_on initial) <> "031122334455"
              \/ adco_updated (switched_on initial) = true)
    by (left; discriminate).
  split; [exact En | split; [exact H|]].
  exact (proj2 (proj2 (adco_record_end_to_end String_toFloat
                         (switched_on initial) En H))).
Defined.

(** ** Labels outside the schema *)

(** C7. For every pair whose label is not in the schema, [processCommand]
    changes nothing and only logs that the data is ignored; a record with
    such a label leaves the component as it is, whatever its checksum;
    and the label appears in no drain. *)
Theorem unknown_label_ignored (toFloat : string -> float)
    (label value : string) (t : MyTicComponent) :
  (forall f, label <> label_of f) ->
  processCommand toFloat label value t
  = (t, command_log label value
          ++ [esp_log LOGI "tic" "data ignored: %s %s" [arg_s label; arg_s value]])
  /\ (forall str, (WString.length str <= INT_MAX)%Z ->
                  label_of_record str = label ->
                  fst (processString toFloat str t) = t)
  /\ (forall t' v, ~ In (label, v) (drain t')).
Proof.
  intros N. split; [apply processCommand_unknown; exact N|]. split.
  - intros str H32 E.
    destruct (processString_label toFloat str t) as [->|[v ->]];
      [reflexivity|].
    rewrite E, processCommand_unknown by exact N. reflexivity.
  - intros t' v I. destruct (drain_labels t' label v I) as [f E].
    exact (N f E).
Qed.

Lemma unknown_label_ignored_witness :
  (forall f, "FOO" <> label_of f)
  /\ checksum_rule "FOO 1 U" = code "U"
  /\ fst (processString String_toFloat "FOO 1 U" initial) = initial.
Proof.
  assert (N : forall f, "FOO" <> label_of f) by (intros f; destruct f; discriminate).
  split; [exact N | split; [reflexivity|]].
  apply (proj1 (proj2 (unknown_label_ignored String_toFloat "FOO" "1" initial N))).
  - vm_compute; discriminate.
  - reflexivity.
Defined.

(** ** Numbers that do not parse *)

(** C8.  For every numeric label and every value that does not start
    with a decimal number, the value is taken as 0: [processCommand]
    compares 0 with the stored number, stores 0 and flags the field when
    they differ, changes nothing when they are equal, and logs nothing
    but its two debug lines. *)
Theorem unparseable_number_is_zero (f : field) (value : string)
    (x : float) (t : MyTicComponent) :
  is_numeric f = true ->
  decimal_prefix value = None ->
  currentValue f t = number x ->
  String_toFloat value = float_zero
  /\ snd (processCommand String_toFloat (label_of f) value t)
     = command_log (label_of f) value
  /\ (float_ne x float_zero = true ->
      currentValue f (fst (processCommand String_toFloat (label_of f) value t))
      = number float_zero
      /\ dirty f (fst (processCommand String_toFloat (label_of f) value t)) = true)
  /\ (float_ne x float_zero = false ->
      fst (processCommand String_toFloat (label_of f) value t) = t).
Proof.
  intros Hnum Hfail Hx.
  pose proof (String_toFloat_failure value Hfail) as Z.
  rewrite processCommand_known.
  assert (I : incoming String_toFloat f value = number float_zero).
  { unfold incoming. rewrite Hnum, Z. reflexivity. }
  rewrite Hx. cbn [fst snd].
  split; [exact Z | split; [reflexivity|]].
  split.
  - intros D.
    replace (differs (number x) (incoming String_toFloat f value)) with true
      by (rewrite I; simpl; auto).
    rewrite stored_value, stored_dirty. auto.
  - intros D.
    replace (differs (number x) (incoming String_toFloat f value)) with false
      by (rewrite I; simpl; auto).
    reflexivity.
Qed.

Lemma unparseable_number_is_zero_witness :
  is_numeric IINST = true
  /\ decimal_prefix "abc" = None
  /\ currentValue IINST (set_iinst float_12345678 initial) = number float_12345678
  /\ currentValue IINST
       (fst (processCommand String_toFloat "IINST" "abc"
               (set_iinst float_12345678 initial)))
     = number float_zero.
Proof.
  assert (H1 : is_numeric IINST = true) by reflexivity.
  assert (H2 : decimal_prefix "abc" = None) by reflexivity.
  assert (H3 : currentValue IINST (set_iinst float_12345678 initial)
               = number float_12345678) by reflexivity.
  split; [exact H1 | split; [exact H2 | split; [exact H3|]]].
  apply (proj1 (proj2 (proj2 (unparseable_number_is_zero IINST "abc"
                                float_12345678 _ H1 H2 H3)))).
  reflexivity.
Defined.

(** ** The switch *)

(** C9.  With the switch off, [update] does nothing: nothing is
    published and the component is left as it is, so the flags raised
    before stay up; the first [update] after the switch is turned on
    again publishes every flagged field and clears the flags. *)
Theorem update_disabled_is_noop (t : MyTicComponent) :
  enable t = false ->
  update t = (t, [])
  /\ (forall f, dirty f t = true ->
                In (publication f t) (snd (update (switched_on (fst (update t)))))
                /\ In (label_of f, published f t)
                      (drain (switched_on (fst (update t)))))
  /\ (forall f, dirty f (fst (update (switched_on (fst (update t))))) = false).
Proof.
  intros En. rewrite update_disabled by exact En. cbn [fst].
  split; [reflexivity|].
  assert (On : enable (switched_on t) = true) by reflexivity.
  split.
  - intros f D.
    replace (publication f t) with (publication f (switched_on t))
      by (destruct f; reflexivity).
    replace (published f t) with (published f (switched_on t))
      by (destruct f; reflexivity).
    split; [apply publication_reported | apply drain_contains]; try exact On;
      destruct f; exact D.
  - intros f. rewrite update_state, On. apply dirty_cleared.
Qed.

Lemma update_disabled_is_noop_witness :
  enable (store_value ADCO (text "031122334455") initial) = false
  /\ update (store_value ADCO (text "031122334455") initial)
     = (store_value ADCO (text "031122334455") initial, []).
Proof.
  assert (En : enable (store_value ADCO (text "031122334455") initial) = false)
    by reflexivity.
  split; [exact En|].
  exact (proj1 (update_disabled_is_noop _ En)).
Defined.

(** ** Frame of [processCommand] *)

(** C10.  For every pair with a label of the schema, [processCommand]
    changes at most the variable and the flag of that label: the value
    and the flag of every other label, and the switch, are unchanged. *)
Theorem processCommand_frame (toFloat : string -> float) (f g : field)
    (value : string) (t : MyTicComponent) :
  g <> f ->
  currentValue g (fst (processCommand toFloat (label_of f) value t))
  = currentValue g t
  /\ dirty g (fst (processCommand toFloat (label_of f) value t)) = dirty g t
  /\ enable (fst (processCommand toFloat (label_of f) value t)) = enable t.
Proof.
  intros N. rewrite processCommand_known. cbn [fst].
  destruct (differs (currentValue f t) (incoming toFloat f value)).
  - destruct (store_value_frame f g (incoming toFloat f value) t N) as [V D].
    rewrite V, D, store_value_enable. auto.
  - auto.
Qed.

Lemma processCommand_frame_witness :
  ADCO <> BASE
  /\ currentValue ADCO
       (fst (processCommand String_toFloat "BASE" "012345678" initial))
     = text "".
Proof.
  assert (N : ADCO <> BASE) by discriminate.
  split; [exact N|].
  exact (proj1 (processCommand_frame String_toFloat BASE ADCO "012345678"
                  initial N)).
Defined.

(** * Further properties of the code *)

(** ** The record parser *)

Lemma checksum_over_range (l : list ascii) : (32 <= checksum_over l <= 95)%Z.
Proof.
  unfold checksum_over. change 63%Z with (Z.ones 6).
  rewrite Z.land_ones by lia.
  pose proof (Z.mod_pos_bound (sum_codes l) (2 ^ 6) eq_refl). lia.
Qed.

Lemma checksum_of_record_range (str : string) :
  (32 <= checksum_of_record str <= 95)%Z.
Proof.
  unfold checksum_of_record. change 63%Z with (Z.ones 6).
  rewrite Z.land_ones by lia.
  match goal with
  | |- (32 <= ?x mod _ + 32 <= 95)%Z =>
      pose proof (Z.mod_pos_bound x (2 ^ 6) eq_refl)
  end. lia.
Qed.

(** X1. A record without two separators is dropped without a word:
    [processString] leaves the component as it is, does not call
    [processCommand] and logs no warning, only its debug line. *)
Theorem malformed_record_dropped (toFloat : string -> float) (str : string)
    (t : MyTicComponent) :
  count_char separator str < 2 ->
  processString toFloat str t
  = (t, [esp_log LOGD "tic" "tic_received %s" [arg_s str]])
  /\ forwarded (snd (processString toFloat str t)) = false.
Proof.
  intros H. rewrite processString_malformed by exact H.
  split; reflexivity.
Qed.

Lemma malformed_record_dropped_witness :
  count_char separator "ADCO 031122334455" < 2
  /\ processString String_toFloat "ADCO 031122334455" initial
     = (initial,
        [esp_log LOGD "tic" "tic_received %s" [arg_s "ADCO 031122334455"]]).
Proof.
  assert (H : count_char separator "ADCO 031122334455" < 2)
    by (vm_compute; lia).
  split; [exact H|].
  exact (proj1 (malformed_record_dropped String_toFloat "ADCO 031122334455"
                  initial H)).
Defined.

(** X2. The checksum [processString] computes is always a character of
    codes [0x20] to [0x5F]; a record whose last character is outside this
    range (a lower-case letter, a control character, a byte above 127) is
    rejected whatever the rest of it (a record being a string without the
    null character, with two separators). *)
Theorem checksum_is_printable (toFloat : string -> float) (str : string)
    (t : MyTicComponent) :
  count_char NUL str = 0 ->
  2 <= count_char separator str ->
  (WString.length str <= INT_MAX)%Z ->
  (code (last_char str) < 32 \/ 95 < code (last_char str))%Z ->
  (32 <= checksum_of_record str <= 95)%Z
  /\ processString toFloat str t
     = (t, [esp_log LOGD "tic" "tic_received %s" [arg_s str];
            checksum_error str]).
Proof.
  intros H0 H2 H32 Hout.
  split; [apply checksum_of_record_range|].
  rewrite processString_wellformed by assumption.
  pose proof (checksum_over_range
                (firstn (String.length str - 2) (chars str))) as R.
  fold (checksum_rule str) in R.
  destruct (Z.eqb_spec (code (last_char str)) (checksum_rule str)) as [E|_];
    [lia | reflexivity].
Qed.

Lemma checksum_is_printable_witness :
  count_char NUL "PTEC TH.. z" = 0
  /\ 2 <= count_char separator "PTEC TH.. z"
  /\ (WString.length "PTEC TH.. z" <= INT_MAX)%Z
  /\ (code (last_char "PTEC TH.. z") < 32 \/ 95 < code (last_char "PTEC TH.. z"))%Z
  /\ fst (processString String_toFloat "PTEC TH.. z" initial) = initial.
Proof.
  assert (H2 : 2 <= count_char separator "PTEC TH.. z") by (vm_compute; lia).
  assert (H32 : (WString.length "PTEC TH.. z" <= INT_MAX)%Z)
    by (vm_compute; discriminate).
  assert (Ho : (code (last_char "PTEC TH.. z") < 32
                \/ 95 < code (last_char "PTEC TH.. z"))%Z)
    by (right; vm_compute; reflexivity).
  split; [reflexivity | split; [exact H2 | split; [exact H32 | split; [exact Ho|]]]].
  exact (f_equal fst (proj2 (checksum_is_printable String_toFloat "PTEC TH.. z"
                               initial eq_refl H2 H32 Ho))).
Defined.

Lemma chars_append (a b : string) : chars (a ++ b)%string = chars a ++ chars b.
Proof. unfold chars; induction a; simpl; congruence. Qed.

Lemma chars_closed_with (body : string) (k : ascii) :
  chars (closed_with body k) = chars body ++ [separator; k].
Proof. unfold closed_with. rewrite chars_append. reflexivity. Qed.

Lemma length_closed_with (body : string) (k : ascii) :
  String.length (closed_with body k) = String.length body + 2.
Proof. unfold closed_with. rewrite length_append. reflexivity. Qed.

Lemma last_char_closed_with (body : string) (k : ascii) :
  last_char (closed_with body k) = k.
Proof.
  unfold last_char. rewrite chars_closed_with.
  change [separator; k] with ([separator] ++ [k]).
  rewrite app_assoc. apply last_last.
Qed.

Lemma checksum_rule_closed_with (body : string) (k : ascii) :
  checksum_rule (closed_with body k) = checksum_over (chars body).
Proof.
  unfold checksum_rule. rewrite length_closed_with, chars_closed_with.
  replace (String.length body + 2 - 2) with (List.length (chars body) + 0)
    by (rewrite length_chars; lia).
  rewrite firstn_app_2. simpl. rewrite app_nil_r. reflexivity.
Qed.

Lemma count_char_append (ch : ascii) (a b : string) :
  count_char ch (a ++ b)%string = count_char ch a + count_char ch b.
Proof. induction a as [|c a IH]; simpl; [reflexivity | rewrite IH; lia]. Qed.

Lemma count_closed_with (body : string) (k : ascii) :
  count_char separator body + 1 <= count_char separator (closed_with body k).
Proof.
  unfold closed_with. rewrite count_char_append. simpl.
  destruct (Ascii.eqb k separator); lia.
Qed.

Lemma count_char_occ (ch : ascii) (s : string) :
  count_char ch s = count_occ ascii_dec (chars s) ch.
Proof.
  unfold chars. induction s as [|c s IH]; simpl; [reflexivity|].
  destruct (Ascii.eqb_spec c ch) as [->|N]; destruct (ascii_dec _ _);
    try congruence; rewrite IH; reflexivity.
Qed.

Lemma sum_codes_app (a b : list ascii) :
  sum_codes (a ++ b) = (sum_codes a + sum_codes b)%Z.
Proof. unfold sum_codes. induction a; simpl; lia. Qed.

Lemma sum_codes_permutation (l l' : list ascii) :
  Permutation l l' -> sum_codes l = sum_codes l'.
Proof.
  unfold sum_codes. induction 1; simpl; lia.
Qed.

Lemma code_checksum_char (body : string) :
  code (checksum_char body) = checksum_over (chars body).
Proof.
  unfold checksum_char, code.
  pose proof (checksum_over_range (chars body)) as R.
  rewrite nat_ascii_embedding by lia. lia.
Qed.

Lemma before_append (ch : ascii) (a b : string) :
  count_char ch a = 0 -> before ch (a ++ String ch b)%string = a.
Proof.
  induction a as [|c a IH]; simpl; intros H.
  - rewrite Ascii.eqb_refl. reflexivity.
  - destruct (Ascii.eqb c ch); [discriminate|]. f_equal. apply IH. exact H.
Qed.

Lemma after_append (ch : ascii) (a b : string) :
  count_char ch a = 0 -> after ch (a ++ String ch b)%string = b.
Proof.
  induction a as [|c a IH]; simpl; intros H.
  - rewrite Ascii.eqb_refl. reflexivity.
  - destruct (Ascii.eqb c ch); [discriminate|]. apply IH. exact H.
Qed.

(** The test of [processString] on a record closed by a separator and a
    last character [k]: the checksum of the body against [k]. *)
Lemma processString_closed (toFloat : string -> float) (body : string)
    (k : ascii) (t : MyTicComponent) :
  count_char NUL (closed_with body k) = 0 ->
  1 <= count_char separator body ->
  (WString.length (closed_with body k) <= INT_MAX)%Z ->
  processString toFloat (closed_with body k) t =
    (ESP_LOGD "tic" "tic_received %s" [arg_s (closed_with body k)] ;;
     if (code k =? checksum_over (chars body))%Z
     then processCommand toFloat (label_of_record (closed_with body k))
            (value_of_record (closed_with body k))
     else emit (checksum_error (closed_with body k))) t.
Proof.
  intros H0 H1 H32.
  pose proof (count_closed_with body k).
  rewrite processString_wellformed by (assumption || lia).
  rewrite last_char_closed_with, checksum_rule_closed_with. reflexivity.
Qed.

(** X3. The checksum is blind to the order of the characters it covers:
    two records that end with the same character and whose bodies hold
    the same characters in another order (two digits of a value swapped)
    have the same computed checksum, and [processString] forwards both or
    rejects both (the records being without the null character). *)
Theorem checksum_blind_to_reordering (toFloat : string -> float)
    (body body' : string) (k : ascii) (t : MyTicComponent) :
  Permutation (chars body) (chars body') ->
  count_char NUL (closed_with body k) = 0 ->
  1 <= count_char separator body ->
  (WString.length (closed_with body k) <= INT_MAX)%Z ->
  checksum_of_record (closed_with body k)
  = checksum_of_record (closed_with body' k)
  /\ forwarded (snd (processString toFloat (closed_with body k) t))
     = forwarded (snd (processString toFloat (closed_with body' k) t)).
Proof.
  intros P H0 H1 H32.
  assert (H0' : count_char NUL (closed_with body' k) = 0).
  { unfold closed_with in *. rewrite count_char_append in *.
    rewrite (count_char_occ NUL body) in H0. rewrite (count_char_occ NUL body').
    rewrite <- (proj1 (Permutation_count_occ ascii_dec _ _) P). exact H0. }
  assert (L : String.length body' = String.length body).
  { rewrite <- !length_chars. symmetry. apply Permutation_length. exact P. }
  assert (H1' : 1 <= count_char separator body').
  { rewrite count_char_occ in *.
    rewrite <- (proj1 (Permutation_count_occ ascii_dec _ _) P). exact H1. }
  assert (H32' : (WString.length (closed_with body' k) <= INT_MAX)%Z).
  { unfold WString.length in *. rewrite length_closed_with in *. lia. }
  assert (S : checksum_over (chars body) = checksum_over (chars body')).
  { unfold checksum_over. rewrite (sum_codes_permutation _ _ P). reflexivity. }
  pose proof (count_closed_with body k). pose proof (count_closed_with body' k).
  pose proof (count_le_length separator (closed_with body k)).
  pose proof (count_le_length separator (closed_with body' k)).
  split.
  - rewrite !checksum_of_record_rule by (assumption || lia).
    rewrite !checksum_rule_closed_with. exact S.
  - rewrite !processString_closed by assumption.
    unfold ESP_LOGD. rewrite !emit_then. cbn [snd]. rewrite <- S.
    cbn [forwarded existsb String.eqb Ascii.eqb Bool.eqb orb].
    destruct (code k =? checksum_over (chars body))%Z.
    + rewrite !processCommand_forwarded. reflexivity.
    + reflexivity.
Qed.

Lemma checksum_blind_to_reordering_witness :
  Permutation (chars "ADCO 031122334455") (chars "ADCO 301122334455")
  /\ count_char NUL (closed_with "ADCO 031122334455" "8") = 0
  /\ 1 <= count_char separator "ADCO 031122334455"
  /\ (WString.length (closed_with "ADCO 031122334455" "8") <= INT_MAX)%Z
  /\ checksum_of_record "ADCO 031122334455 8"
     = checksum_of_record "ADCO 301122334455 8".
Proof.
  assert (P : Permutation (chars "ADCO 031122334455") (chars "ADCO 301122334455")).
  { simpl. do 5 apply perm_skip. apply perm_swap. }
  assert (H1 : 1 <= count_char separator "ADCO 031122334455")
    by (vm_compute; lia).
  assert (H32 : (WString.length (closed_with "ADCO 031122334455" "8") <= INT_MAX)%Z)
    by (vm_compute; discriminate).
  split; [exact P | split; [reflexivity | split; [exact H1 | split; [exact H32|]]]].
  exact (proj1 (checksum_blind_to_reordering String_toFloat
                  "ADCO 031122334455" "ADCO 301122334455" "8" initial P
                  eq_refl H1 H32)).
Defined.

Lemma checksum_over_substitution (a b : list ascii) (c c' : ascii) :
  checksum_over (a ++ c :: b) = checksum_over (a ++ c' :: b)
  <-> ((code c - code c') mod 64 = 0)%Z.
Proof.
  unfold checksum_over. change 63%Z with (Z.ones 6).
  rewrite !Z.land_ones by lia. change (2 ^ 6)%Z with 64%Z.
  rewrite !sum_codes_app.
  change (sum_codes (c :: b)) with (code c + sum_codes b)%Z.
  change (sum_codes (c' :: b)) with (code c' + sum_codes b)%Z.
  set (x := (sum_codes a + (code c + sum_codes b))%Z).
  set (y := (sum_codes a + (code c' + sum_codes b))%Z).
  replace (code c - code c')%Z with (x - y)%Z by (unfold x, y; lia).
  rewrite <- (Z.cong_iff_0 x y 64).
  split; intros H; lia.
Qed.

(** X4. The checksum detects the substitution of one covered character
    exactly when the two codes differ by a number that is not a multiple
    of 64: the record of a valid record with such a character replaced is
    rejected, while a substitution by a character 64 apart (a digit and
    the lower-case letter 64 above it) goes unnoticed.  The altered record
    holds no null character. *)
Theorem substitution_detected (toFloat : string -> float) (a b : string)
    (c c' k : ascii) (t : MyTicComponent) :
  count_char NUL (closed_with (a ++ String c' b) k) = 0 ->
  1 <= count_char separator (a ++ String c' b) ->
  (WString.length (closed_with (a ++ String c' b) k) <= INT_MAX)%Z ->
  code k = checksum_over (chars (a ++ String c b)) ->
  (checksum_of_record (closed_with (a ++ String c' b) k) = code k
   <-> ((code c - code c') mod 64 = 0)%Z)
  /\ (((code c - code c') mod 64 <> 0)%Z ->
      processString toFloat (closed_with (a ++ String c' b) k) t
      = (t, [esp_log LOGD "tic" "tic_received %s"
               [arg_s (closed_with (a ++ String c' b) k)];
             checksum_error (closed_with (a ++ String c' b) k)])).
Proof.
  intros H0 H1 H32 Hk.
  pose proof (count_closed_with (a ++ String c' b) k).
  pose proof (count_le_length separator (closed_with (a ++ String c' b) k)).
  assert (E : checksum_of_record (closed_with (a ++ String c' b) k)
              = checksum_over (chars a ++ c' :: chars b)).
  { rewrite checksum_of_record_rule by (assumption || lia).
    rewrite checksum_rule_closed_with, chars_append. reflexivity. }
  rewrite chars_append in Hk. change (chars (String c b)) with (c :: chars b) in Hk.
  assert (I : checksum_of_record (closed_with (a ++ String c' b) k) = code k
              <-> ((code c - code c') mod 64 = 0)%Z).
  { rewrite E, Hk. rewrite <- checksum_over_substitution.
    split; intros X; symmetry; exact X. }
  split; [exact I|]. intros N.
  rewrite processString_closed by assumption.
  rewrite chars_append. change (chars (String c' b)) with (c' :: chars b).
  destruct (Z.eqb_spec (code k) (checksum_over (chars a ++ c' :: chars b))) as [X|_].
  - exfalso. apply N, I. rewrite E. symmetry. exact X.
  - reflexivity.
Qed.

Lemma substitution_detected_witness :
  count_char NUL (closed_with ("IINST 00" ++ String "3" "") "Y") = 0
  /\ 1 <= count_char separator ("IINST 00" ++ String "3" "")
  /\ (WString.length (closed_with ("IINST 00" ++ String "3" "") "Y") <= INT_MAX)%Z
  /\ code "Y" = checksum_over (chars ("IINST 00" ++ String "2" ""))
  /\ fst (processString String_toFloat "IINST 003 Y" initial) = initial.
Proof.
  assert (H1 : 1 <= count_char separator ("IINST 00" ++ String "3" ""))
    by (vm_compute; lia).
  assert (H32 : (WString.length (closed_with ("IINST 00" ++ String "3" "") "Y")
                 <= INT_MAX)%Z) by (vm_compute; discriminate).
  assert (Hk : code "Y" = checksum_over (chars ("IINST 00" ++ String "2" "")))
    by reflexivity.
  split; [reflexivity | split; [exact H1 | split; [exact H32 | split; [exact Hk|]]]].
  refine (f_equal fst (proj2 (substitution_detected String_toFloat "IINST 00" ""
                                "2" "3" "Y" initial eq_refl H1 H32 Hk) _)).
  vm_compute. discriminate.
Defined.

(** The record of a label and a value without the null character has
    none: its checksum character is not the null character. *)
Lemma record_of_no_NUL (label value : string) :
  count_char NUL label = 0 ->
  count_char NUL value = 0 ->
  count_char NUL (record_of label value) = 0.
Proof.
  intros Hl Hv. unfold record_of, closed_with.
  rewrite !count_char_append. simpl count_char.
  rewrite Hl, Hv.
  destruct (Ascii.eqb_spec
              (checksum_char (label ++ String separator value)) NUL) as [E|_];
    [|reflexivity].
  exfalso.
  pose proof (code_checksum_char (label ++ String separator value)) as C.
  pose proof (checksum_over_range
                (chars (label ++ String separator value))) as R.
  rewrite E in C. change (code NUL) with 0%Z in C. lia.
Qed.

(** [processString] on the record of a label and a value. *)
Lemma processString_record_of (toFloat : string -> float) (label value : string)
    (t : MyTicComponent) :
  count_char NUL label = 0 ->
  count_char NUL value = 0 ->
  count_char separator label = 0 ->
  count_char separator value = 0 ->
  (WString.length (record_of label value) <= INT_MAX)%Z ->
  processString toFloat (record_of label value) t
  = (ESP_LOGD "tic" "tic_received %s" [arg_s (record_of label value)] ;;
     processCommand toFloat label value) t.
Proof.
  intros Nl Nv Hl Hv H32.
  pose proof (record_of_no_NUL label value Nl Nv) as H0.
  unfold record_of in *.
  rewrite processString_closed;
    [| exact H0 | rewrite count_char_append; unfold separator; simpl; lia
     | exact H32].
  rewrite code_checksum_char, Z.eqb_refl.
  unfold label_of_record, value_of_record, closed_with.
  rewrite append_assoc. simpl append.
  rewrite before_append, after_append by exact Hl.
  rewrite before_append by exact Hv.
  reflexivity.
Qed.

(** X5. Round trip of the record format: for every label and value
    without separator nor null character, [processString] accepts the record made of the
    label, a separator, the value, a separator and the checksum character
    of what precedes, and hands exactly this label and this value to
    [processCommand]: the component ends as [processCommand] leaves it. *)
Theorem record_round_trip (toFloat : string -> float) (label value : string)
    (t : MyTicComponent) :
  count_char NUL label = 0 ->
  count_char NUL value = 0 ->
  count_char separator label = 0 ->
  count_char separator value = 0 ->
  (WString.length (record_of label value) <= INT_MAX)%Z ->
  processString toFloat (record_of label value) t
  = (fst (processCommand toFloat label value t),
     esp_log LOGD "tic" "tic_received %s" [arg_s (record_of label value)]
     :: snd (processCommand toFloat label value t))
  /\ forwarded (snd (processString toFloat (record_of label value) t)) = true.
Proof.
  intros Nl Nv Hl Hv H32.
  rewrite processString_record_of by assumption.
  unfold ESP_LOGD. rewrite emit_then. split; [reflexivity|].
  cbn [snd forwarded existsb String.eqb Ascii.eqb Bool.eqb orb].
  apply processCommand_forwarded.
Qed.

Lemma record_round_trip_witness :
  count_char NUL "PAPP" = 0
  /\ count_char NUL "00750" = 0
  /\ count_char separator "PAPP" = 0
  /\ count_char separator "00750" = 0
  /\ (WString.length (record_of "PAPP" "00750") <= INT_MAX)%Z
  /\ record_of "PAPP" "00750" = "PAPP 00750 -"
  /\ fst (processString String_toFloat "PAPP 00750 -" initial)
     = fst (processCommand String_toFloat "PAPP" "00750" initial).
Proof.
  assert (Hl : count_char separator "PAPP" = 0) by reflexivity.
  assert (Hv : count_char separator "00750" = 0) by reflexivity.
  assert (H32 : (WString.length (record_of "PAPP" "00750") <= INT_MAX)%Z)
    by (vm_compute; discriminate).
  split; [reflexivity | split; [reflexivity|]].
  split; [exact Hl | split; [exact Hv | split; [exact H32 | split; [reflexivity|]]]].
  exact (f_equal fst (proj1 (record_round_trip String_toFloat "PAPP" "00750"
                               initial eq_refl eq_refl Hl Hv H32))).
Defined.

(** ** The framer *)

(** The bytes that follow the first CR play no part in the reading. *)
Lemma read_available_cut (r more : list ascii) (buff : string) :
  ~ In CR r ->
  read_available (r ++ CR :: more) buff
  = (fst (fst (read_available r buff)), snd (fst (read_available r buff)), more).
Proof.
  revert buff. induction r as [|c r IH]; intros buff Hcr; simpl.
  - reflexivity.
  - destruct (Ascii.eqb_spec c CR) as [->|_]; [exfalso; apply Hcr; left; reflexivity|].
    assert (Hcr' : ~ In CR r) by (intros H; apply Hcr; right; exact H).
    destruct (Ascii.eqb c LF || (50 <? WString.length (WString.concat buff c))%Z).
    + rewrite (IH "" Hcr').
      destruct (read_available r "") as [[b ev] rest]. reflexivity.
    + apply IH. exact Hcr'.
Qed.

Lemma first_CR (rx : list ascii) :
  ~ In CR rx \/ exists r more, rx = r ++ CR :: more /\ ~ In CR r.
Proof.
  induction rx as [|c rx IH].
  - left. simpl. tauto.
  - destruct (Ascii.eqb_spec c CR) as [->|N].
    + right. exists [], rx. split; [reflexivity | simpl; tauto].
    + destruct IH as [H | (r & more & -> & H)].
      * left. simpl. intros [E|I]; [congruence | contradiction].
      * right. exists (c :: r), more. split; [reflexivity|].
        simpl. intros [E|I]; [congruence | contradiction].
Qed.

(** What the reading of [r ++ CR :: more] from an empty buffer yields. *)
Lemma read_available_until_CR (r more : list ascii) :
  ~ In CR r ->
  exists warnings,
    read_available (r ++ CR :: more) "" = (pending_of r, warnings, more)
    /\ Forall (fun e => e = buffer_warning) warnings.
Proof.
  intros Hcr. destruct (read_available_from_empty r Hcr) as (w & E & Hw).
  exists w. rewrite read_available_cut, E by exact Hcr. auto.
Qed.

Lemma segment_app (seg a b : list ascii) :
  segment seg (a ++ b) = segment (segment seg a) b.
Proof. unfold segment. apply fold_left_app. Qed.

Lemma pending_of_after_LF (junk rec : list ascii) :
  ~ In LF rec -> List.length rec <= 50 ->
  pending_of (junk ++ LF :: rec) = text_of rec.
Proof.
  intros Hlf Hlen. unfold pending_of.
  rewrite segment_app.
  change (segment (segment [] junk) (LF :: rec)) with (segment [] rec).
  rewrite segment_no_LF by exact Hlf. simpl app.
  unfold tail51. rewrite Nat.mod_small by lia. rewrite Nat.sub_diag. reflexivity.
Qed.

(** X6. A call of [loop] reads the bytes up to the first CR, this CR
    included, and leaves the bytes after it in the queue: with the switch
    on, it does to the component and logs what it would on the bytes
    before the CR alone, whatever follows; when none of these bytes is the
    null character, the parser is handed the buffer they leave, unless it
    is empty. *)
Theorem loop_stops_at_first_CR (toFloat : string -> float)
    (r more : list ascii) (t : MyTicComponent) :
  enable t = true ->
  ~ In CR r ->
  loop toFloat (r ++ CR :: more) t
  = (fst (fst (loop toFloat r t)), snd (fst (loop toFloat r t)), more)
  /\ snd (loop toFloat r t) = []
  /\ (~ In NUL r ->
      emitted (snd (fst (loop toFloat (r ++ CR :: more) t)))
      = (if (pending_of r =? "")%string then [] else [pending_of r])).
Proof.
  intros En Hcr.
  destruct (read_available_from_empty r Hcr) as (w & E & Hw).
  destruct (read_available_until_CR r more Hcr) as (w' & E' & _).
  assert (W : w' = w).
  { rewrite read_available_cut, E in E' by exact Hcr. simpl in E'. congruence. }
  subst w'.
  split; [|split].
  - rewrite (loop_enabled toFloat _ t _ _ _ En E').
    rewrite (loop_enabled toFloat _ t _ _ _ En E).
    destruct (WString.differs_from_empty (pending_of r)); reflexivity.
  - rewrite (loop_enabled toFloat _ t _ _ _ En E).
    destruct (WString.differs_from_empty (pending_of r)); reflexivity.
  - intros Hnul.
    rewrite (loop_enabled_clean toFloat _ t _ _ _ En E'
               (pending_of_clean r Hnul)).
    destruct (pending_of r =? "")%string; cbn [fst snd].
    + apply emitted_warnings. exact Hw.
    + rewrite emitted_app, emitted_warnings, processString_emitted by exact Hw.
      reflexivity.
Qed.

Lemma loop_stops_at_first_CR_witness :
  enable (switched_on initial) = true
  /\ ~ In CR (chars "IINST 002 Y")
  /\ snd (loop String_toFloat (chars "IINST 002 Y" ++ CR :: chars "PAPP")
            (switched_on initial))
     = chars "PAPP".
Proof.
  assert (En : enable (switched_on initial) = true) by reflexivity.
  assert (Hcr : ~ In CR (chars "IINST 002 Y")) by not_listed.
  split; [exact En | split; [exact Hcr|]].
  exact (f_equal snd (proj1 (loop_stops_at_first_CR String_toFloat
                               (chars "IINST 002 Y") (chars "PAPP")
                               (switched_on initial) En Hcr))).
Defined.

(** X7. An LF starts a new record: whatever was read before it in the
    same call (a truncated record, noise of any length without CR) is
    thrown away, and the record of at most 50 characters (none of them
    the null character) that follows, up to its CR, is handed to the
    parser alone. *)
Theorem loop_resynchronises_on_LF (toFloat : string -> float)
    (junk rec more : list ascii) (t : MyTicComponent) :
  enable t = true ->
  ~ In CR junk -> ~ In CR rec -> ~ In LF rec -> ~ In NUL rec ->
  rec <> [] -> List.length rec <= 50 ->
  exists warnings,
    Forall (fun e => e = buffer_warning) warnings
    /\ loop toFloat (junk ++ LF :: rec ++ CR :: more) t
       = (fst (processString toFloat (text_of rec) t),
          warnings ++ snd (processString toFloat (text_of rec) t), more)
    /\ emitted (snd (fst (loop toFloat (junk ++ LF :: rec ++ CR :: more) t)))
       = [text_of rec].
Proof.
  intros En Hj Hr Hlf Hnul Hne Hlen.
  assert (Hcr : ~ In CR (junk ++ LF :: rec)).
  { intros I. apply in_app_or in I. destruct I as [I|[E|I]];
      [contradiction | discriminate E | contradiction]. }
  destruct (read_available_until_CR (junk ++ LF :: rec) more Hcr) as (w & E & Hw).
  rewrite pending_of_after_LF in E by assumption.
  rewrite <- app_assoc in E. simpl app in E.
  exists w. split; [exact Hw|].
  rewrite (loop_enabled_clean toFloat _ t _ _ _ En E (text_of_clean rec Hnul)).
  rewrite text_of_not_empty by exact Hne. cbn [fst snd].
  split; [reflexivity|].
  rewrite emitted_app, emitted_warnings, processString_emitted by exact Hw.
  reflexivity.
Qed.

Lemma loop_resynchronises_on_LF_witness :
  enable (switched_on initial) = true
  /\ ~ In CR (chars "334455 8") /\ ~ In CR (chars "IINST 002 Y")
  /\ ~ In LF (chars "IINST 002 Y") /\ ~ In NUL (chars "IINST 002 Y")
  /\ chars "IINST 002 Y" <> [] /\ List.length (chars "IINST 002 Y") <= 50
  /\ emitted (snd (fst (loop String_toFloat
                          (chars "334455 8" ++ LF :: chars "IINST 002 Y" ++ CR :: [])
                          (switched_on initial))))
     = ["IINST 002 Y"].
Proof.
  assert (En : enable (switched_on initial) = true) by reflexivity.
  assert (Hj : ~ In CR (chars "334455 8")) by not_listed.
  assert (Hr : ~ In CR (chars "IINST 002 Y")) by not_listed.
  assert (Hl : ~ In LF (chars "IINST 002 Y")) by not_listed.
  assert (Hn : ~ In NUL (chars "IINST 002 Y")) by not_listed.
  assert (Hne : chars "IINST 002 Y" <> []) by discriminate.
  assert (Hlen : List.length (chars "IINST 002 Y") <= 50) by (simpl; lia).
  repeat (split; [assumption|]).
  destruct (loop_resynchronises_on_LF String_toFloat (chars "334455 8")
              (chars "IINST 002 Y") [] (switched_on initial)
              En Hj Hr Hl Hn Hne Hlen) as (w & _ & _ & Em).
  exact Em.
Defined.

(** X8. Whatever bytes the UART delivers, one call of [loop] hands the
    parser at most one string, and that string is never empty, never
    longer than 50 characters and holds neither CR nor LF. *)
Theorem loop_emits_one_bounded_record (toFloat : string -> float)
    (rx : list ascii) (t : MyTicComponent) (str : string) :
  In str (emitted (snd (fst (loop toFloat rx t)))) ->
  emitted (snd (fst (loop toFloat rx t))) = [str]
  /\ str <> ""
  /\ String.length str <= 50
  /\ ~ In CR (chars str)
  /\ ~ In LF (chars str).
Proof.
  destruct (enable t) eqn:En.
  2:{ rewrite loop_disabled by exact En. intros []. }
  assert (K : exists r, ~ In CR r
                        /\ emitted (snd (fst (loop toFloat rx t)))
                           = (if WString.differs_from_empty (pending_of r)
                              then [pending_of r] else [])).
  { destruct (first_CR rx) as [Hcr | (r & more & -> & Hcr)].
    - exists rx. split; [exact Hcr|].
      destruct (read_available_from_empty rx Hcr) as (w & E & Hw).
      rewrite (loop_enabled toFloat _ t _ _ _ En E).
      destruct (WString.differs_from_empty (pending_of rx)); cbn [fst snd].
      + rewrite emitted_app, emitted_warnings, processString_emitted by exact Hw.
        reflexivity.
      + apply emitted_warnings. exact Hw.
    - exists r. split; [exact Hcr|].
      destruct (read_available_until_CR r more Hcr) as (w & E & Hw).
      rewrite (loop_enabled toFloat _ t _ _ _ En E).
      destruct (WString.differs_from_empty (pending_of r)); cbn [fst snd].
      + rewrite emitted_app, emitted_warnings, processString_emitted by exact Hw.
        reflexivity.
      + apply emitted_warnings. exact Hw. }
  destruct K as (r & Hcr & ->).
  destruct (WString.differs_from_empty (pending_of r)) eqn:N; [|intros []].
  intros [<-|[]].
  split; [reflexivity|].
  split; [intros E; rewrite E in N; discriminate N|].
  split; [apply length_pending_of|].
  split; intros I; apply pending_of_members in I; destruct I as [I Hc];
    [contradiction | congruence].
Qed.

Lemma loop_emits_one_bounded_record_witness :
  In "IINST 002 Y"
     (emitted (snd (fst (loop String_toFloat (wire "IINST 002 Y")
                           (switched_on initial)))))
  /\ String.length "IINST 002 Y" <= 50.
Proof.
  assert (I : In "IINST 002 Y"
                (emitted (snd (fst (loop String_toFloat (wire "IINST 002 Y")
                                      (switched_on initial))))))
    by (left; reflexivity).
  split; [exact I|].
  exact (proj1 (proj2 (proj2 (loop_emits_one_bounded_record String_toFloat
                               (wire "IINST 002 Y") (switched_on initial)
                               "IINST 002 Y" I)))).
Defined.

Lemma plain_spec (s : string) (c : ascii) :
  plain s = true -> In c (chars s) ->
  c <> separator /\ c <> CR /\ c <> LF.
Proof.
  unfold plain. rewrite forallb_forall. intros H I.
  specialize (H c I). apply negb_true_iff in H.
  apply orb_false_iff in H. destruct H as [H _].
  apply orb_false_iff in H. destruct H as [H H3].
  apply orb_false_iff in H. destruct H as [H1 H2].
  apply Ascii.eqb_neq in H1, H2, H3. auto.
Qed.

Lemma plain_no_NUL (s : string) : plain s = true -> count_char NUL s = 0.
Proof.
  unfold plain. rewrite forallb_forall. intros H.
  apply count_char_absent. intros I.
  specialize (H NUL I). apply negb_true_iff in H.
  apply orb_false_iff in H. destruct H as [_ H]. discriminate H.
Qed.

Lemma plain_no_separator (s : string) :
  plain s = true -> count_char separator s = 0.
Proof.
  intros H. rewrite count_char_occ. apply count_occ_not_In.
  intros I. destruct (plain_spec s separator H I) as [N _]. congruence.
Qed.

Lemma checksum_char_range (body : string) :
  (32 <= code (checksum_char body) <= 95)%Z.
Proof. rewrite code_checksum_char. apply checksum_over_range. Qed.

Lemma chars_record_of (label value : string) :
  chars (record_of label value)
  = chars label ++ separator :: chars value
    ++ [separator; checksum_char (label ++ String separator value)].
Proof.
  unfold record_of. rewrite chars_closed_with, chars_append.
  rewrite <- app_assoc. reflexivity.
Qed.

Lemma record_of_clean (label value : string) (c : ascii) :
  plain label = true -> plain value = true ->
  In c (chars (record_of label value)) -> c <> CR /\ c <> LF.
Proof.
  intros Hl Hv I. rewrite chars_record_of in I.
  apply in_app_or in I. destruct I as [I|[<-|I]].
  - destruct (plain_spec _ _ Hl I) as (_ & A & B). auto.
  - split; discriminate.
  - apply in_app_or in I. destruct I as [I|[<-|[<-|[]]]].
    + destruct (plain_spec _ _ Hv I) as (_ & A & B). auto.
    + split; discriminate.
    + pose proof (checksum_char_range (label ++ String separator value)) as R.
      split; intros E; rewrite E in R; vm_compute in R; destruct R as [R _];
        apply R; reflexivity.
Qed.

(** X9. End to end through the framer and the parser: a frame as the
    meter sends it (an LF, the record of a label and a value of plain
    characters, that is other than the separator, CR, LF and the null
    character, at most 50 characters long, a CR), delivered to one call
    of [loop] with the switch on, after any CR-free bytes and before any
    others, leaves the component as [processCommand] on this label and
    value does, and leaves the bytes after the CR unread. *)
Theorem frame_is_applied (toFloat : string -> float) (label value : string)
    (junk more : list ascii) (t : MyTicComponent) :
  enable t = true ->
  ~ In CR junk ->
  plain label = true -> plain value = true ->
  String.length (record_of label value) <= 50 ->
  fst (fst (loop toFloat
              (junk ++ LF :: chars (record_of label value) ++ CR :: more) t))
  = fst (processCommand toFloat label value t)
  /\ snd (loop toFloat
            (junk ++ LF :: chars (record_of label value) ++ CR :: more) t)
     = more
  /\ emitted (snd (fst (loop toFloat
              (junk ++ LF :: chars (record_of label value) ++ CR :: more) t)))
     = [record_of label value].
Proof.
  intros En Hj Hl Hv Hlen.
  set (rec := chars (record_of label value)).
  assert (Hcr : ~ In CR (junk ++ LF :: rec)).
  { intros I. apply in_app_or in I. destruct I as [I|[E|I]];
      [contradiction | discriminate E |].
    destruct (record_of_clean label value CR Hl Hv I) as [N _]. congruence. }
  assert (Hlf : ~ In LF rec).
  { intros I. destruct (record_of_clean label value LF Hl Hv I) as [_ N].
    congruence. }
  assert (Hlen' : List.length rec <= 50) by (unfold rec; rewrite length_chars; exact Hlen).
  destruct (read_available_until_CR (junk ++ LF :: rec) more Hcr) as (w & E & Hw).
  rewrite pending_of_after_LF in E by assumption.
  rewrite <- app_assoc in E. simpl app in E.
  unfold rec, text_of, chars in E. rewrite string_of_list_ascii_of_string in E.
  fold (chars (record_of label value)) in E. fold rec in E.
  rewrite (loop_enabled_clean toFloat _ t _ _ _ En E
             (record_of_no_NUL label value (plain_no_NUL _ Hl) (plain_no_NUL _ Hv))).
  assert (Ne : (record_of label value =? "")%string = false).
  { unfold record_of, closed_with. destruct (label ++ String separator value)%string;
      reflexivity. }
  rewrite Ne. cbn [fst snd].
  rewrite processString_record_of;
    [| apply plain_no_NUL; assumption
     | apply plain_no_NUL; assumption
     | apply plain_no_separator; assumption
     | apply plain_no_separator; assumption
     | unfold WString.length, INT_MAX; lia].
  unfold ESP_LOGD. rewrite emit_then. cbn [fst snd].
  split; [reflexivity | split; [reflexivity|]].
  rewrite emitted_app, emitted_warnings by exact Hw.
  cbn [app emitted String.eqb Ascii.eqb Bool.eqb].
  rewrite processCommand_emitted. reflexivity.
Qed.

Lemma frame_is_applied_witness :
  enable (switched_on initial) = true
  /\ ~ In CR (chars "5 8")
  /\ plain "PAPP" = true /\ plain "00750" = true
  /\ String.length (record_of "PAPP" "00750") <= 50
  /\ papp (fst (fst (loop String_toFloat
                       (chars "5 8" ++ LF :: chars "PAPP 00750 -" ++ CR :: [LF])
                       (switched_on initial))))
     = S754_finite false 12288000 (-14).
Proof.
  assert (En : enable (switched_on initial) = true) by reflexivity.
  assert (Hj : ~ In CR (chars "5 8")) by not_listed.
  assert (Hl : plain "PAPP" = true) by reflexivity.
  assert (Hv : plain "00750" = true) by reflexivity.
  assert (Hlen : String.length (record_of "PAPP" "00750") <= 50)
    by (vm_compute; lia).
  repeat (split; [assumption|]).
  exact (f_equal papp (proj1 (frame_is_applied String_toFloat "PAPP" "00750"
                                (chars "5 8") [LF] (switched_on initial)
                                En Hj Hl Hv Hlen))).
Defined.

(** ** The store *)

Lemma differs_same (toFloat : string -> float) (f : field) (value : string) :
  toFloat value <> S754_nan ->
  differs (incoming toFloat f value) (incoming toFloat f value) = false.
Proof.
  intros N. unfold incoming. destruct (is_numeric f); simpl.
  - unfold float_ne. rewrite SFeqb_same by exact N. reflexivity.
  - rewrite String.eqb_refl. reflexivity.
Qed.

(** After [processCommand] the stored value compares equal to the
    incoming one. *)
Lemma processCommand_settled (toFloat : string -> float) (f : field)
    (value : string) (t : MyTicComponent) :
  toFloat value <> S754_nan ->
  differs (currentValue f (fst (processCommand toFloat (label_of f) value t)))
          (incoming toFloat f value) = false.
Proof.
  intros N. rewrite processCommand_known. cbn [fst].
  destruct (differs (currentValue f t) (incoming toFloat f value)) eqn:D.
  - rewrite stored_value. apply differs_same. exact N.
  - exact D.
Qed.

Lemma processCommand_again (toFloat : string -> float) (label value : string)
    (t : MyTicComponent) :
  toFloat value <> S754_nan ->
  fst (processCommand toFloat label value
         (fst (processCommand toFloat label value t)))
  = fst (processCommand toFloat label value t).
Proof.
  intros N. destruct (label_known_or_not label) as [[f ->]|U].
  - pose proof (processCommand_settled toFloat f value t N) as S.
    rewrite (processCommand_known toFloat f value
               (fst (processCommand toFloat (label_of f) value t))).
    rewrite S. reflexivity.
  - rewrite !processCommand_unknown by exact U. reflexivity.
Qed.

(** X10. [processCommand] settles: after it the stored value of the
    label compares equal to the incoming value (for a conversion result
    that is not a NaN), so applying the same pair a second time changes
    nothing, neither a value nor a flag. *)
Theorem processCommand_idempotent (toFloat : string -> float)
    (label value : string) (t : MyTicComponent) :
  toFloat value <> S754_nan ->
  (forall f, label = label_of f ->
             differs (currentValue f (fst (processCommand toFloat label value t)))
                     (incoming toFloat f value) = false)
  /\ fst (processCommand toFloat label value
            (fst (processCommand toFloat label value t)))
     = fst (processCommand toFloat label value t).
Proof.
  intros N. split.
  - intros f ->. apply processCommand_settled. exact N.
  - apply processCommand_again. exact N.
Qed.

Lemma processCommand_idempotent_witness :
  String_toFloat "00750" <> S754_nan
  /\ fst (processCommand String_toFloat "PAPP" "00750"
            (fst (processCommand String_toFloat "PAPP" "00750" initial)))
     = fst (processCommand String_toFloat "PAPP" "00750" initial).
Proof.
  assert (N : String_toFloat "00750" <> S754_nan) by (vm_compute; discriminate).
  split; [exact N|].
  exact (proj2 (processCommand_idempotent String_toFloat "PAPP" "00750" initial N)).
Defined.

(** X11. A value is published once: when a pair has been applied and an
    [update] has run with the switch on, applying the same pair again
    raises no flag, and the [update] that follows publishes nothing for
    it (nothing at all). *)
Theorem repeated_value_not_republished (toFloat : string -> float)
    (label value : string) (t : MyTicComponent) :
  enable t = true ->
  toFloat value <> S754_nan ->
  drain (fst (processCommand toFloat label value
                (fst (update (fst (processCommand toFloat label value t))))))
  = []
  /\ forall f, dirty f (fst (processCommand toFloat label value
                  (fst (update (fst (processCommand toFloat label value t))))))
               = false.
Proof.
  intros En N.
  set (t1 := fst (processCommand toFloat label value t)).
  assert (En1 : enable t1 = true) by (unfold t1; rewrite processCommand_enable; exact En).
  assert (U : fst (update t1) = cleared t1) by (rewrite update_state, En1; reflexivity).
  assert (S : fst (processCommand toFloat label value (cleared t1)) = cleared t1).
  { destruct (label_known_or_not label) as [[f ->]|X].
    - rewrite processCommand_known. cbn [fst].
      rewrite currentValue_cleared. unfold t1.
      rewrite processCommand_settled by exact N. reflexivity.
    - rewrite processCommand_unknown by exact X. reflexivity. }
  rewrite U, S. split.
  - rewrite <- U. apply drain_after_update.
  - intros f. apply dirty_cleared.
Qed.

Lemma repeated_value_not_republished_witness :
  enable (switched_on initial) = true
  /\ String_toFloat "00750" <> S754_nan
  /\ drain (fst (processCommand String_toFloat "PAPP" "00750"
                   (fst (update (fst (processCommand String_toFloat "PAPP" "00750"
                                        (switched_on initial)))))))
     = [].
Proof.
  assert (En : enable (switched_on initial) = true) by reflexivity.
  assert (N : String_toFloat "00750" <> S754_nan) by (vm_compute; discriminate).
  split; [exact En | split; [exact N|]].
  exact (proj1 (repeated_value_not_republished String_toFloat "PAPP" "00750"
                  (switched_on initial) En N)).
Defined.

Lemma store_value_keeps_flag (f g : field) (v : stored) (t : MyTicComponent) :
  dirty g t = true -> dirty g (store_value f v t) = true.
Proof. destruct f, v, g; simpl; auto. Qed.

Section Ingestion.

Variable toFloat : string -> float.

Lemma processCommand_keeps_flag (label value : string) (t : MyTicComponent)
  (f : field) :
dirty f t = true ->
dirty f (fst (processCommand toFloat label value t)) = true.
Proof.
intros D. destruct (label_known_or_not label) as [[f0 ->]|U].
- rewrite processCommand_known. cbn [fst].
  destruct (differs _ _); [apply store_value_keeps_flag|]; exact D.
- rewrite processCommand_unknown by exact U. exact D.
Qed.

Lemma exec_keeps_flag (c : call) (t : MyTicComponent) (f : field) :
is_update c = false ->
dirty f t = true -> dirty f (exec toFloat c t) = true.
Proof.
intros Hc D. destruct c as [|state|rx|label value|]; simpl.
- exact D.
- destruct f; exact D.
- destruct (loop_state toFloat rx t) as [-> | (l & v & ->)];
    [exact D | apply processCommand_keeps_flag; exact D].
- apply processCommand_keeps_flag; exact D.
- discriminate Hc.
Qed.

Lemma exec_enable (c : call) (t : MyTicComponent) :
is_write_state c = false -> enable (exec toFloat c t) = enable t.
Proof.
intros Hc. destruct c as [|state|rx|label value|]; simpl.
- reflexivity.
- discriminate Hc.
- apply loop_enable.
- apply processCommand_enable.
- rewrite update_state. destruct (enable t) eqn:En; [exact En | exact En].
Qed.

Lemma exec_disabled (c : call) (t : MyTicComponent) :
is_periodic c = true -> enable t = false -> exec toFloat c t = t.
Proof.
intros Hc En. destruct c as [|state|rx|label value|]; simpl; try discriminate Hc.
- reflexivity.
- rewrite loop_disabled by exact En. reflexivity.
- rewrite update_disabled by exact En. reflexivity.
Qed.

End Ingestion.

(** X12. No record received, no toggle of the switch and no [setup] ever
    clears a flag: a field flagged for publication stays flagged along
    every sequence of calls that contains no [update]. *)
Theorem flag_survives_ingestion (toFloat : string -> float) (cs : list call)
    (t : MyTicComponent) (f : field) :
  dirty f t = true ->
  forallb (fun c => negb (is_update c)) cs = true ->
  dirty f (run toFloat cs t) = true.
Proof.
  revert t. induction cs as [|c cs IH]; intros t D H; simpl in *.
  - exact D.
  - apply andb_true_iff in H. destruct H as [Hc H].
    apply negb_true_iff in Hc.
    apply IH; [apply exec_keeps_flag; assumption | exact H].
Qed.

Lemma flag_survives_ingestion_witness :
  dirty PAPP (fst (processCommand String_toFloat "PAPP" "00750" initial)) = true
  /\ forallb (fun c => negb (is_update c))
       [call_write_state true; call_loop (wire "PAPP 00000 (");
        call_processCommand "ADCO" "x"; call_write_state false] = true
  /\ dirty PAPP
       (run String_toFloat
          [call_write_state true; call_loop (wire "PAPP 00000 (");
           call_processCommand "ADCO" "x"; call_write_state false]
          (fst (processCommand String_toFloat "PAPP" "00750" initial)))
     = true.
Proof.
  assert (D : dirty PAPP (fst (processCommand String_toFloat "PAPP" "00750" initial))
              = true) by reflexivity.
  assert (H : forallb (fun c => negb (is_update c))
                [call_write_state true; call_loop (wire "PAPP 00000 (");
                 call_processCommand "ADCO" "x"; call_write_state false] = true)
    by reflexivity.
  split; [exact D | split; [exact H|]].
  exact (flag_survives_ingestion String_toFloat _ _ PAPP D H).
Defined.

(** X13. The switch changes through [write_state] only: along every
    sequence of calls without [write_state] it keeps its position; and
    while it is off, the calls the framework makes by itself ([setup],
    [loop], [update]) leave the whole component as it is. *)
Theorem switch_changes_by_write_state_only (toFloat : string -> float)
    (cs : list call) (t : MyTicComponent) :
  forallb (fun c => negb (is_write_state c)) cs = true ->
  enable (run toFloat cs t) = enable t
  /\ (enable t = false -> forallb is_periodic cs = true ->
      run toFloat cs t = t).
Proof.
  revert t. induction cs as [|c cs IH]; intros t H; simpl in *.
  - auto.
  - apply andb_true_iff in H. destruct H as [Hc H].
    apply negb_true_iff in Hc.
    destruct (IH (exec toFloat c t) H) as [E P].
    split.
    + rewrite E. apply exec_enable. exact Hc.
    + intros En Hp. apply andb_true_iff in Hp. destruct Hp as [Hpc Hp].
      rewrite (exec_disabled toFloat c t Hpc En) in *. apply P; assumption.
Qed.

Lemma switch_changes_by_write_state_only_witness :
  forallb (fun c => negb (is_write_state c))
    [call_loop (wire "PAPP 00750 -"); call_update; call_setup] = true
  /\ enable (run String_toFloat
               [call_loop (wire "PAPP 00750 -"); call_update; call_setup]
               initial)
     = false.
Proof.
  assert (H : forallb (fun c => negb (is_write_state c))
                [call_loop (wire "PAPP 00750 -"); call_update; call_setup] = true)
    by reflexivity.
  split; [exact H|].
  exact (proj1 (switch_changes_by_write_state_only String_toFloat _ initial H)).
Defined.

Lemma flat_map_filter {A B : Type} (p : A -> bool) (g : A -> B) (l : list A) :
  flat_map (fun x => if p x then [g x] else []) l = map g (filter p l).
Proof.
  induction l as [|a l IH]; simpl; [reflexivity|].
  destruct (p a); simpl; rewrite IH; reflexivity.
Qed.

Lemma NoDup_map_filter {A B : Type} (p : A -> bool) (g : A -> B) (l : list A) :
  NoDup (map g l) -> NoDup (map g (filter p l)).
Proof.
  induction l as [|a l IH]; simpl; intros H; [constructor|].
  inversion H as [|x xs Hn Hd]; subst.
  destruct (p a); simpl; [|apply IH; exact Hd].
  constructor; [|apply IH; exact Hd].
  intros I. apply Hn. apply in_map_iff in I. destruct I as (y & E & Iy).
  apply filter_In in Iy. rewrite <- E. apply in_map. tauto.
Qed.

Lemma update_order_labels_distinct : NoDup (map label_of update_order).
Proof.
  simpl. repeat constructor; simpl; intros H;
    repeat (destruct H as [H|H]; [discriminate H|]); exact H.
Qed.

(** X14. What [update] publishes, in full: with the switch off nothing;
    with the switch on, the fields whose flag is up and only those, each
    once, in the order ADCO, BASE, HCHC, HCHP, EJPHN, EJPHPM, IMAX,
    ISOUSC, IINST, PAPP, OPTARIF, PTEC, HHPHC, each with its stored value,
    divided by 1000 for the five index fields. *)
Theorem drain_is_the_flagged_fields (t : MyTicComponent) :
  drain t
  = (if enable t
     then map (fun f => (label_of f, published f t))
              (filter (fun f => dirty f t) update_order)
     else [])
  /\ NoDup (map fst (drain t))
  /\ (forall label v,
        In (label, v) (drain t)
        <-> enable t = true
            /\ exists f, label = label_of f /\ dirty f t = true
                         /\ v = published f t).
Proof.
  assert (E : drain t
              = (if enable t
                 then map (fun f => (label_of f, published f t))
                          (filter (fun f => dirty f t) update_order)
                 else [])).
  { destruct (enable t) eqn:En.
    - rewrite drain_enabled by exact En. apply flat_map_filter.
    - apply drain_disabled. exact En. }
  split; [exact E|]. split.
  - rewrite E. destruct (enable t); [|constructor].
    rewrite map_map. cbn [fst].
    apply NoDup_map_filter. apply update_order_labels_distinct.
  - intros label v. rewrite E. destruct (enable t).
    + rewrite in_map_iff. split.
      * intros (f & Ef & If). apply filter_In in If. destruct If as [_ D].
        inversion Ef; subst. split; [reflexivity|]. exists f. auto.
      * intros (_ & f & -> & D & ->). exists f. split; [reflexivity|].
        apply filter_In. split; [apply update_order_complete | exact D].
    + split; [intros [] | intros [X _]; discriminate X].
Qed.

(** ** The earlier revision with five labels *)

Lemma five_emit_then (e : event) (a : FiveLabels.action)
    (t : FiveLabels.MyTicComponent) :
  FiveLabels.andThen (FiveLabels.emit e) a t = (fst (a t), e :: snd (a t)).
Proof. unfold FiveLabels.andThen, FiveLabels.emit. destruct (a t); reflexivity. Qed.

Section Revisions.

Variable toFloat : string -> float.

Lemma five_processCommand_unknown (label value : string)
  (t : FiveLabels.MyTicComponent) :
earlier_label label = false ->
fst (FiveLabels.processCommand toFloat label value t) = t.
Proof.
unfold earlier_label. simpl. intros H.
repeat (apply orb_false_iff in H; destruct H as [? H]).
unfold FiveLabels.processCommand, FiveLabels.ESP_LOGD.
rewrite !five_emit_then. cbn [fst].
repeat match goal with
       | E : (label =? ?s)%string = false |- context [(label =? ?s)%string] =>
           rewrite E
       end.
reflexivity.
Qed.

(** On every label both revisions do the same to the variables they
  share. *)
Lemma earlier_processCommand (label value : string) (t : MyTicComponent) :
fst (FiveLabels.processCommand toFloat label value (earlier_view t))
= earlier_view (fst (processCommand toFloat label value t)).
Proof.
destruct (label_known_or_not label) as [[f ->]|U].
- rewrite processCommand_known. cbn [fst].
  destruct f;
    try (rewrite five_processCommand_unknown by reflexivity;
         destruct (differs _ _); reflexivity);
    unfold FiveLabels.processCommand, FiveLabels.ESP_LOGD;
    rewrite !five_emit_then; simpl;
    unfold FiveLabels.when, FiveLabels.andThen, FiveLabels.assign,
      FiveLabels.skip; simpl;
    match goal with
    | |- context [if ?c then _ else _] => destruct c
    end; reflexivity.
- rewrite processCommand_unknown by exact U. cbn [fst].
  apply five_processCommand_unknown.
  unfold earlier_label. simpl.
  repeat (apply orb_false_iff; split); try reflexivity;
    apply String.eqb_neq;
    [ apply (U ADCO) | apply (U BASE) | apply (U ISOUSC) | apply (U IINST)
    | apply (U PAPP) ].
Qed.

Lemma earlier_processString (str : string) (t : MyTicComponent) :
fst (FiveLabels.processString toFloat str (earlier_view t))
= earlier_view (fst (processString toFloat str t)).
Proof.
unfold FiveLabels.processString, processString,
  FiveLabels.ESP_LOGD, FiveLabels.ESP_LOGW, ESP_LOGD, ESP_LOGW.
rewrite five_emit_then, emit_then. cbn [fst].
repeat match goal with
       | |- context [if ?c then _ else _] => destruct c
       end; try reflexivity.
apply earlier_processCommand.
Qed.

Lemma earlier_loop (rx : list ascii) (t : MyTicComponent) :
fst (fst (FiveLabels.loop toFloat rx (earlier_view t)))
= earlier_view (fst (fst (loop toFloat rx t)))
/\ snd (FiveLabels.loop toFloat rx (earlier_view t)) = snd (loop toFloat rx t).
Proof.
unfold FiveLabels.loop, loop.
change (FiveLabels.enable (earlier_view t)) with (enable t).
destruct (enable t); [|split; reflexivity].
destruct (read_available rx "") as [[buff w] rest].
destruct (WString.differs_from_empty buff).
- pose proof (earlier_processString buff t) as E.
  destruct (FiveLabels.processString toFloat buff (earlier_view t)).
  destruct (processString toFloat buff t). simpl in *. auto.
- split; reflexivity.
Qed.

Lemma earlier_update_state (t : MyTicComponent) :
fst (FiveLabels.update (earlier_view t)) = earlier_view (fst (update t)).
Proof.
rewrite update_state.
destruct t as [en f1 f2 f3 f4 f5 f6 f7 f8 f9 f10 f11 f12 f13
               x1 x2 x3 x4 x5 x6 x7 x8 x9 s1 s2 s3 s4].
unfold earlier_view. simpl.
destruct en, f1, f3, f4, f5, f6; reflexivity.
Qed.

Lemma earlier_exec (c : call) (t : MyTicComponent) :
FiveLabels.exec toFloat c (earlier_view t) = earlier_view (exec toFloat c t).
Proof.
destruct c as [|state|rx|label value|]; simpl.
- reflexivity.
- reflexivity.
- apply earlier_loop.
- apply earlier_processCommand.
- apply earlier_update_state.
Qed.

Lemma earlier_run (cs : list call) (t : MyTicComponent) :
FiveLabels.run toFloat cs (earlier_view t) = earlier_view (run toFloat cs t).
Proof.
revert t. induction cs as [|c cs IH]; intros t.
- reflexivity.
- unfold FiveLabels.run, run in *. simpl. rewrite earlier_exec. apply IH.
Qed.

End Revisions.

Lemma filter_map_filter {A B : Type} (q : B -> bool) (p : A -> bool)
    (g : A -> B) (l : list A) :
  filter q (map g (filter p l)) = map g (filter p (filter (fun a => q (g a)) l)).
Proof.
  induction l as [|a l IH]; simpl; [reflexivity|].
  destruct (p a) eqn:P; simpl; destruct (q (g a)) eqn:Q; simpl;
    rewrite ?P; simpl; rewrite IH; reflexivity.
Qed.

Lemma earlier_drain (t : MyTicComponent) :
  FiveLabels.drain (earlier_view t)
  = filter (fun p => earlier_label (fst p)) (drain t).
Proof.
  destruct (enable t) eqn:En.
  - rewrite drain_enabled by exact En. rewrite flat_map_filter.
    rewrite filter_map_filter. cbn [fst].
    replace (filter (fun a => earlier_label (label_of a)) update_order)
      with [ADCO; BASE; ISOUSC; IINST; PAPP] by reflexivity.
    destruct t as [en f1 f2 f3 f4 f5 f6 f7 f8 f9 f10 f11 f12 f13
                   x1 x2 x3 x4 x5 x6 x7 x8 x9 s1 s2 s3 s4].
    simpl in En. subst en.
    unfold FiveLabels.drain, earlier_view. simpl.
    destruct f1, f3, f4, f5, f6; reflexivity.
  - rewrite drain_disabled by exact En.
    unfold FiveLabels.drain, FiveLabels.update, FiveLabels.when.
    change (FiveLabels.enable (earlier_view t)) with (enable t).
    rewrite En. reflexivity.
Qed.

(** X15. The current revision extends the earlier one with five labels:
    along every sequence of calls ([setup], [write_state], [loop] on any
    bytes, [processCommand], [update]) the variables and flags of ADCO,
    BASE, ISOUSC, IINST and PAPP and the switch are the same in both, and
    what the earlier revision publishes at an [update] is what the
    current one publishes for these five labels, in the same order. *)
Theorem current_revision_extends_earlier (toFloat : string -> float)
    (cs : list call) (t : MyTicComponent) :
  earlier_view initial = FiveLabels.initial
  /\ FiveLabels.run toFloat cs (earlier_view t) = earlier_view (run toFloat cs t)
  /\ FiveLabels.drain (FiveLabels.run toFloat cs (earlier_view t))
     = filter (fun p => earlier_label (fst p)) (drain (run toFloat cs t)).
Proof.
  rewrite earlier_run.
  split; [reflexivity | split; [reflexivity | apply earlier_drain]].
Qed.

(** ** The first revision, without flags *)

Lemma unflagged_emit_then (e : event) (a : Unflagged.action)
    (t : Unflagged.MyTicComponent) :
  Unflagged.andThen (Unflagged.emit e) a t = (fst (a t), e :: snd (a t)).
Proof. unfold Unflagged.andThen, Unflagged.emit. destruct (a t); reflexivity. Qed.

Lemma unflagged_processCommand_unknown (toFloat : string -> float)
    (label value : string) (t : Unflagged.MyTicComponent) :
  earlier_label label = false ->
  fst (Unflagged.processCommand toFloat label value t) = t.
Proof.
  unfold earlier_label. simpl. intros H.
  repeat (apply orb_false_iff in H; destruct H as [? H]).
  unfold Unflagged.processCommand, Unflagged.ESP_LOGD.
  rewrite !unflagged_emit_then. cbn [fst].
  repeat match goal with
         | E : (label =? ?s)%string = false |- context [(label =? ?s)%string] =>
             rewrite E
         end.
  reflexivity.
Qed.

Lemma unflagged_processCommand (toFloat : string -> float)
    (label value : string) (t : MyTicComponent) :
  fst (Unflagged.processCommand toFloat label value (unflagged_view t))
  = unflagged_view (fst (processCommand toFloat label value t)).
Proof.
  destruct (label_known_or_not label) as [[f ->]|U].
  - rewrite processCommand_known. cbn [fst].
    destruct f;
      try (rewrite unflagged_processCommand_unknown by reflexivity;
           destruct (differs _ _); reflexivity);
      unfold Unflagged.processCommand, Unflagged.ESP_LOGD;
      rewrite !unflagged_emit_then; simpl;
      unfold Unflagged.when, Unflagged.andThen, Unflagged.assign,
        Unflagged.skip; simpl;
      match goal with
      | |- context [if ?c then _ else _] => destruct c
      end; reflexivity.
  - rewrite processCommand_unknown by exact U. cbn [fst].
    apply unflagged_processCommand_unknown.
    unfold earlier_label. simpl.
    repeat (apply orb_false_iff; split); try reflexivity;
      apply String.eqb_neq;
      [ apply (U ADCO) | apply (U BASE) | apply (U ISOUSC) | apply (U IINST)
      | apply (U PAPP) ].
Qed.

(** X16. The first revision, whose [processCommand] has no flag and no
    [return], stores the same values as the current one: on every label
    and value both leave ADCO, BASE, ISOUSC, IINST and PAPP (and the
    switch) equal.  Its [update] changes nothing and publishes the five
    values at every call, whatever the switch; every pair the current
    revision publishes for these labels is among them. *)
Theorem first_revision_stores_the_same (toFloat : string -> float)
    (label value : string) (t : MyTicComponent) :
  fst (Unflagged.processCommand toFloat label value (unflagged_view t))
  = unflagged_view (fst (processCommand toFloat label value t))
  /\ fst (Unflagged.update (unflagged_view t)) = unflagged_view t
  /\ Unflagged.drain (unflagged_view t)
     = map (fun f => (label_of f, published f t))
           [ADCO; BASE; ISOUSC; IINST; PAPP]
  /\ (forall p, earlier_label (fst p) = true -> In p (drain t) ->
                In p (Unflagged.drain (unflagged_view t))).
Proof.
  split; [apply unflagged_processCommand|].
  split; [reflexivity|].
  assert (D : Unflagged.drain (unflagged_view t)
              = map (fun f => (label_of f, published f t))
                    [ADCO; BASE; ISOUSC; IINST; PAPP]) by reflexivity.
  split; [exact D|].
  intros [l v] Hl I. rewrite D.
  destruct (enable t) eqn:En.
  - rewrite drain_enabled in I by exact En.
    apply in_flat_map in I. destruct I as (f & _ & I).
    destruct (dirty f t); [|contradiction].
    destruct I as [E|[]]. inversion E; subst.
    apply in_map_iff. exists f. split; [reflexivity|].
    destruct f; simpl in *; try discriminate Hl; tauto.
  - rewrite drain_disabled in I by exact En. contradiction.
Qed.

(** ** Bounds of the buffer *)

(** The reading of bytes without CR nor LF, with the count of the
    cleanings. *)
Lemma read_available_warnings (rx seg : list ascii) :
  ~ In CR rx -> ~ In LF rx ->
  read_available rx (text_of (tail51 seg))
  = (text_of (tail51 (seg ++ rx)),
     repeat buffer_warning ((List.length seg mod 51 + List.length rx) / 51),
     []).
Proof.
  revert seg. induction rx as [|c rx IH]; intros seg Hcr Hlf.
  - rewrite app_nil_r, Nat.add_0_r.
    rewrite Nat.div_small by (apply Nat.mod_upper_bound; lia). reflexivity.
  - assert (Hcr' : ~ In CR rx) by (intros H; apply Hcr; right; exact H).
    assert (Hlf' : ~ In LF rx) by (intros H; apply Hlf; right; exact H).
    simpl read_available.
    destruct (Ascii.eqb_spec c CR) as [->|_]; [exfalso; apply Hcr; left; reflexivity|].
    destruct (Ascii.eqb_spec c LF) as [->|_]; [exfalso; apply Hlf; left; reflexivity|].
    rewrite length_concat. unfold WString.length.
    rewrite length_text_of, length_tail51.
    pose proof (Nat.mod_upper_bound (List.length seg) 51) as Hr.
    specialize (IH (seg ++ [c]) Hcr' Hlf').
    rewrite <- app_assoc in IH. simpl app in IH.
    simpl List.length.
    destruct (Z.ltb_spec 50 (Z.of_nat (List.length seg mod 51) + 1)) as [Hbig|Hfit];
      simpl orb; cbv iota.
    + rewrite tail51_snoc_full in IH by lia. change (text_of []) with "" in IH.
      rewrite IH. f_equal. f_equal.
      assert (E : List.length (seg ++ [c]) mod 51 = 0).
      { rewrite <- length_tail51, tail51_snoc_full by lia. reflexivity. }
      rewrite E.
      replace (List.length seg mod 51 + S (List.length rx))
        with (1 * 51 + (0 + List.length rx)) by lia.
      rewrite Nat.div_add_l by lia. reflexivity.
    + rewrite tail51_snoc_fits, text_of_snoc in IH by lia.
      rewrite IH. f_equal. f_equal. f_equal. f_equal.
      assert (E : List.length (seg ++ [c]) mod 51 = List.length seg mod 51 + 1).
      { rewrite <- !length_tail51, tail51_snoc_fits by lia.
        rewrite length_app. reflexivity. }
      rewrite E. lia.
Qed.

(** X17. Over-long input: when one call of [loop], with the switch on,
    reads [n] bytes without CR, LF nor null character, it cleans its
    buffer and logs the
    warning once every 51 bytes, that is [n / 51] times, and only the
    last [n mod 51] bytes reach the parser (none when [n] is a multiple
    of 51): a record of more than 50 characters is never delivered
    whole. *)
Theorem loop_cleans_every_51_bytes (toFloat : string -> float)
    (rx : list ascii) (t : MyTicComponent) :
  enable t = true ->
  ~ In CR rx -> ~ In LF rx -> ~ In NUL rx ->
  pending_of rx
  = text_of (skipn (List.length rx - List.length rx mod 51) rx)
  /\ loop toFloat rx t
     = (if (pending_of rx =? "")%string
        then (t, repeat buffer_warning (List.length rx / 51), [])
        else (fst (processString toFloat (pending_of rx) t),
              repeat buffer_warning (List.length rx / 51)
              ++ snd (processString toFloat (pending_of rx) t), [])).
Proof.
  intros En Hcr Hlf Hnul.
  assert (P : pending_of rx
              = text_of (skipn (List.length rx - List.length rx mod 51) rx)).
  { unfold pending_of. rewrite segment_no_LF by exact Hlf. reflexivity. }
  split; [exact P|].
  pose proof (read_available_warnings rx [] Hcr Hlf) as E.
  change (text_of (tail51 [])) with "" in E. simpl app in E.
  change (tail51 rx) with (skipn (List.length rx - List.length rx mod 51) rx) in E.
  rewrite <- P in E. simpl in E.
  exact (loop_enabled_clean toFloat rx t _ _ _ En E (pending_of_clean rx Hnul)).
Qed.

Lemma loop_cleans_every_51_bytes_witness :
  enable (switched_on initial) = true
  /\ ~ In CR (repeat "0"%char 51 ++ chars "IINST 002 Y")
  /\ ~ In LF (repeat "0"%char 51 ++ chars "IINST 002 Y")
  /\ ~ In NUL (repeat "0"%char 51 ++ chars "IINST 002 Y")
  /\ pending_of (repeat "0"%char 51 ++ chars "IINST 002 Y") = "IINST 002 Y".
Proof.
  assert (En : enable (switched_on initial) = true) by reflexivity.
  assert (Hcr : ~ In CR (repeat "0"%char 51 ++ chars "IINST 002 Y")) by not_listed.
  assert (Hlf : ~ In LF (repeat "0"%char 51 ++ chars "IINST 002 Y")) by not_listed.
  assert (Hnul : ~ In NUL (repeat "0"%char 51 ++ chars "IINST 002 Y")) by not_listed.
  split; [exact En | split; [exact Hcr | split; [exact Hlf | split; [exact Hnul|]]]].
  exact (proj1 (loop_cleans_every_51_bytes String_toFloat _ (switched_on initial)
                  En Hcr Hlf Hnul)).
Defined.

Lemma read_available_LFs (n : nat) (more : list ascii) :
  read_available (repeat LF n ++ CR :: more) "" = ("", [], more)
  /\ read_available (repeat LF n) "" = ("", [], []).
Proof.
  induction n as [|n [IH1 IH2]]; simpl.
  - split; reflexivity.
  - rewrite IH1, IH2. split; reflexivity.
Qed.

(** X18. Empty records: a CR that only LFs precede (two CRs in a row,
    the CR LF between two records read on its own) makes [loop] emit
    nothing, log nothing and leave the component as it is; the bytes
    after the CR stay in the queue. *)
Theorem empty_record_is_skipped (toFloat : string -> float) (n : nat)
    (more : list ascii) (t : MyTicComponent) :
  loop toFloat (repeat LF n ++ CR :: more) t
  = (t, [], if enable t then more else repeat LF n ++ CR :: more)
  /\ loop toFloat (repeat LF n) t
     = (t, [], if enable t then [] else repeat LF n).
Proof.
  destruct (read_available_LFs n more) as [E1 E2].
  destruct (enable t) eqn:En.
  - rewrite (loop_enabled toFloat _ t _ _ _ En E1).
    rewrite (loop_enabled toFloat _ t _ _ _ En E2). split; reflexivity.
  - rewrite !loop_disabled by exact En. split; reflexivity.
Qed.

(** A separator [indexOf] finds stands before the first null character. *)
Lemma indexOf_before_NUL (ch : ascii) (s : string) :
  ch <> NUL ->
  (-1 <? WString.indexOf s ch)%Z = true ->
  count_char ch (before NUL s)
  = S (count_char ch (before NUL (after ch s))).
Proof.
  intros Hch. induction s as [|c s IH]; simpl.
  - discriminate.
  - destruct (Ascii.eqb_spec c ch) as [->|Hc].
    + intros _. destruct (Ascii.eqb_spec ch NUL) as [E|_]; [contradiction|].
      simpl. rewrite Ascii.eqb_refl. reflexivity.
    + destruct (Ascii.eqb_spec c NUL) as [_|Hn]; [discriminate|].
      destruct (Z.ltb_spec (WString.indexOf s ch) 0) as [Hneg|Hpos];
        [discriminate|].
      intros _. simpl.
      destruct (Ascii.eqb_spec c ch) as [E|_]; [contradiction|].
      apply IH. apply Z.ltb_lt. lia.
Qed.

(** X19. The null character ends a record: the separators behind the
    first null character of a record are not seen, so a record with
    fewer than two separators before it is dropped without a word, even
    when its last character is its checksum; and a buffer that starts
    with the null character is not handed to the parser at all. *)
Theorem null_character_ends_the_record (toFloat : string -> float)
    (str : string) (rx : list ascii) (t : MyTicComponent) :
  count_char separator (before NUL str) < 2 ->
  processString toFloat str t
  = (t, [esp_log LOGD "tic" "tic_received %s" [arg_s str]])
  /\ forwarded (snd (processString toFloat str t)) = false
  /\ (enable t = true -> ~ In CR rx -> ~ In LF rx -> List.length rx < 50 ->
      loop toFloat (NUL :: rx) t = (t, [], [])).
Proof.
  intros H.
  assert (P : processString toFloat str t
              = (t, [esp_log LOGD "tic" "tic_received %s" [arg_s str]])).
  { unfold separator in H. unfold processString.
    destruct (-1 <? WString.indexOf str " "%char)%Z eqn:G1; [|reflexivity].
    rewrite substring_after by exact G1.
    destruct (-1 <? WString.indexOf (after " "%char str) " "%char)%Z eqn:G2;
      [|reflexivity].
    assert (Hsp : " "%char <> NUL) by discriminate.
    pose proof (indexOf_before_NUL _ _ Hsp G1) as E1.
    pose proof (indexOf_before_NUL _ _ Hsp G2) as E2.
    lia. }
  split; [exact P|]. split; [rewrite P; reflexivity|].
  intros En Hcr Hlf Hlen.
  assert (Hcr' : ~ In CR (NUL :: rx)).
  { intros [E|I]; [discriminate E | contradiction]. }
  assert (Hlf' : ~ In LF (NUL :: rx)).
  { intros [E|I]; [discriminate E | contradiction]. }
  pose proof (read_available_warnings (NUL :: rx) [] Hcr' Hlf') as E.
  change (text_of (tail51 [])) with "" in E. simpl app in E.
  replace ((List.length (@nil ascii) mod 51 + List.length (NUL :: rx)) / 51)
    with 0 in E.
  2:{ symmetry. apply Nat.div_small. simpl. lia. }
  replace (tail51 (NUL :: rx)) with (NUL :: rx) in E.
  2:{ unfold tail51. rewrite Nat.mod_small by (simpl; lia).
      rewrite Nat.sub_diag. reflexivity. }
  rewrite (loop_enabled toFloat _ t _ _ _ En E). reflexivity.
Qed.

Lemma null_character_ends_the_record_witness :
  count_char separator (before NUL (String "A" (String NUL " 1 2"))) < 2
  /\ 2 <= count_char separator (String "A" (String NUL " 1 2"))
  /\ code (last_char (String "A" (String NUL " 1 2")))
     = checksum_rule (String "A" (String NUL " 1 2"))
  /\ forwarded (snd (processString String_toFloat
                       (String "A" (String NUL " 1 2")) initial)) = false.
Proof.
  assert (H : count_char separator (before NUL (String "A" (String NUL " 1 2"))) < 2)
    by (vm_compute; lia).
  split; [exact H|].
  split; [vm_compute; lia|].
  split; [reflexivity|].
  exact (proj1 (proj2 (null_character_ends_the_record String_toFloat
                         (String "A" (String NUL " 1 2")) []
                         initial H))).
Defined.
